(** * Verification of the genetic-algorithm optimizer (optimizer.py)

    A shallow embedding of class [Optimizer]: population grading, uniform
    crossover ([breed]), single-gene mutation ([mutate]) and the
    generational step ([evolve]).

    Modelling choices.
    - Python objects live in a store: a population is a list of
      references to [Network] objects, and every [Network] holds a
      reference to its parameter dict.  Allocation appends to the store,
      so a reference is an index and a fresh object is one whose index is
      at least the previous length of the store.
    - The module-global generator of [random] is an oracle: a tape
      [nat -> N] of raw draws and a cursor in the state; every call of
      [random.random], [random.choice] or [random.randint] reads one cell.
    - A Python float is an IEEE 754 double ([double]); a finite one is
      held as the rational it denotes, and an operation on floats computes
      on the rationals and rounds the result to the nearest double
      ([round_double]).  [grade] and the bound of the elite slice
      ([retain_length_double], [select_double], [evolve_double]) round in
      this way.  Losses and rates are finite, and comparisons of finite
      doubles are comparisons of rationals.  The statements about the
      shape of a generation are made over [select] and [evolve], which
      take the bound [retain_length] from the product without rounding;
      [select_double_exact] and [evolve_double_exact] carry them to the
      rounded bound whenever the two bounds agree; the two bounds can
      differ by one, as with 10 genomes and [retain = 0.7].
    - Exceptions are values of [exn]; the [while] loop of [evolve] runs on
      fuel, and [OutOfFuel] is the only outcome of a run that never leaves
      the loop. *)

From Stdlib Require Import ZArith QArith Qround Lia List Permutation Sorted.
From stdpp Require Import base option list sorting gmap strings.

Local Open Scope Z_scope.

(** ** Values, exceptions, outcomes *)

(** The admissible values of a hyperparameter: numbers (layer counts,
    neuron counts) or names (activation, optimizer). *)
Inductive value : Type :=
| VInt (z : Z)
| VStr (s : string).

#[global] Instance value_eq_dec : EqDecision value.
Proof. solve_decision. Defined.

(** Python's built-in exceptions that the code can raise, then the error
    names of the specification ([EmptyPopulation] ... [EmptyDomain]; no
    statement of optimizer.py raises them), then [NoSuchObject], which is
    not a Python exception: it marks a read through a reference that was
    never allocated, which no Python heap contains. *)
Inductive exn : Type :=
| TypeError
| ValueError
| IndexError
| KeyError
| AttributeError
| ZeroDivisionError
| OverflowError
| EmptyPopulation
| FitnessNotComputed
| InsufficientParents
| EmptyDomain
| NoSuchObject.

#[global] Instance exn_eq_dec : EqDecision exn.
Proof. solve_decision. Defined.

Inductive outcome (A : Type) : Type :=
| Ok (a : A)
| Raise (e : exn)
| OutOfFuel.

Arguments Ok {A} a.
Arguments Raise {A} e.
Arguments OutOfFuel {A}.

(** ** The store *)

(** A reference is an index into one of the two stores. *)
Abbreviation ref := nat (only parsing).

(** Modelled from the spec: class [Network] of module [network] is not
    part of the sources.  Section 3 of the specification describes a
    genome as a parameter mapping that "carries an optional scalar
    fitness/cost attribute, set only after evaluation"; optimizer.py reads
    the two attributes [network] (the mapping) and [loss] (the cost). *)
Record Network : Type := mkNetwork {
  network : ref;
  loss : option Q
}.

Record state : Type := mkState {
  nets : list Network;
  dicts : list (gmap string value);
  cursor : nat
}.

(** The configuration held by an [Optimizer] instance; [nn_param_choices]
    is an insertion-ordered dict, kept as an association list. *)
Record Optimizer : Type := mkOptimizer {
  nn_param_choices : list (string * list value);
  retain : Q;
  random_select : Q;
  mutate_chance : Q
}.

(** ** A state and exception monad *)

Definition M (A : Type) : Type := state -> outcome A * state.

Definition ret {A} (a : A) : M A := fun s => (Ok a, s).

Definition raise {A} (e : exn) : M A := fun s => (Raise e, s).

Definition bind {A B} (m : M A) (f : A -> M B) : M B := fun s =>
  match m s with
  | (Ok a, s') => f a s'
  | (Raise e, s') => (Raise e, s')
  | (OutOfFuel, s') => (OutOfFuel, s')
  end.

Declare Scope py_scope.
Delimit Scope py_scope with py.
Notation "x <- m ;; k" := (bind m (fun x => k))
  (at level 100, m at next level, right associativity) : py_scope.
Notation "m ;;; k" := (bind m (fun _ => k))
  (at level 100, right associativity) : py_scope.
Local Open Scope py_scope.

(** ** Python built-ins used by the optimizer *)

Definition Qltb (x y : Q) : bool := negb (Qle_bool y x).

Definition len {A} (l : list A) : Z := Z.of_nat (length l).

(** [int(q)]: truncation toward zero. *)
Definition py_int (q : Q) : Z := Z.quot (Qnum q) (Z.pos (Qden q)).

(** [l[:k]] and [l[k:]], a negative bound counting from the end. *)
Definition slice_to {A} (l : list A) (k : Z) : list A :=
  if k <? 0 then firstn (Z.to_nat (len l + k)) l else firstn (Z.to_nat k) l.

Definition slice_from {A} (l : list A) (k : Z) : list A :=
  if k <? 0 then skipn (Z.to_nat (len l + k)) l else skipn (Z.to_nat k) l.

(** [l[i]]: [IndexError] out of range, a negative index counts from the end. *)
Definition getitem {A} (l : list A) (i : Z) : M A :=
  let j := if i <? 0 then len l + i else i in
  if j <? 0 then raise IndexError
  else match l !! Z.to_nat j with
       | Some x => ret x
       | None => raise IndexError
       end.

(** ** Double precision *)

(** A Python [float]: a finite double, held as the rational it denotes,
    an infinity or a NaN.  The sign of a zero is not kept; no operation
    of the optimizer tells the two zeros apart. *)
Inductive double : Type :=
| Finite (q : Q)
| PosInf
| NegInf
| NotANumber.

(** [floor (log2 (n / d))] for positive [n] and [d]. *)
Definition log2_ratio (n d : Z) : Z :=
  let e0 := Z.log2 n - Z.log2 d in
  if (if 0 <=? e0 then d * 2 ^ e0 <=? n else d <=? n * 2 ^ (- e0))
  then e0 else e0 - 1.

(** The integer nearest to [n / d], a tie going to the even one, for
    [0 <= n] and [0 < d]. *)
Definition round_half_even (n d : Z) : Z :=
  let m := n / d in
  let r := n mod d in
  match 2 * r ?= d with
  | Lt => m
  | Gt => m + 1
  | Eq => if Z.even m then m else m + 1
  end.

(** The double nearest to a rational, ties to even: a significand of 53
    bits above the exponent [2 ^ t], no exponent below [2 ^ -1074] (the
    subnormal numbers), and an infinity from [2 ^ 1024] on. *)
Definition round_double (q : Q) : double :=
  let q := Qred q in
  let n := Z.abs (Qnum q) in
  let d := Z.pos (Qden q) in
  if n =? 0 then Finite 0
  else
    let t := Z.max (log2_ratio n d - 52) (-1074) in
    let m := if 0 <=? t then round_half_even n (d * 2 ^ t)
             else round_half_even (n * 2 ^ (- t)) d in
    let mag := if 0 <=? t then inject_Z (m * 2 ^ t)
               else Qred (m # Z.to_pos (2 ^ (- t))) in
    if Qle_bool (inject_Z (2 ^ 1024)) mag
    then (if Qnum q <? 0 then NegInf else PosInf)
    else Finite (if Qnum q <? 0 then Qopp mag else mag).

Definition dsign (x : double) : Z :=
  match x with
  | Finite q => Z.sgn (Qnum q)
  | PosInf => 1
  | NegInf => -1
  | NotANumber => 0
  end.

(** [x + y] on floats. *)
Definition dadd (x y : double) : double :=
  match x, y with
  | Finite a, Finite b => round_double (a + b)
  | NotANumber, _ | _, NotANumber => NotANumber
  | PosInf, NegInf | NegInf, PosInf => NotANumber
  | PosInf, _ | _, PosInf => PosInf
  | NegInf, _ | _, NegInf => NegInf
  end.

(** [x * y] on floats. *)
Definition dmul (x y : double) : double :=
  match x, y with
  | Finite a, Finite b => round_double (a * b)
  | NotANumber, _ | _, NotANumber => NotANumber
  | _, _ =>
      match dsign x * dsign y with
      | 0 => NotANumber
      | Z.pos _ => PosInf
      | Z.neg _ => NegInf
      end
  end.

(** [x / d] on floats, for a finite [d] other than zero. *)
Definition ddiv (x : double) (d : Q) : double :=
  match x with
  | Finite a => round_double (a / d)
  | PosInf => if Qltb d 0 then NegInf else PosInf
  | NegInf => if Qltb d 0 then PosInf else NegInf
  | NotANumber => NotANumber
  end.

(** The conversion of an int operand in arithmetic that mixes an int with
    a float: the nearest double, [OverflowError] when the int is beyond
    the largest one. *)
Definition to_double (n : Z) : M Q :=
  match round_double (inject_Z n) with
  | Finite d => ret d
  | _ => raise OverflowError
  end.

(** [int(x)] on a float. *)
Definition double_int (x : double) : M Z :=
  match x with
  | Finite q => ret (py_int q)
  | PosInf | NegInf => raise OverflowError
  | NotANumber => raise ValueError
  end.

(** [summed / n] on a float and an int. *)
Definition true_div (x : double) (n : Z) : M double :=
  d <- to_double n ;;
  if Qeq_bool d 0 then raise ZeroDivisionError else ret (ddiv x d).

(** [sorted(l, key=...)] on (key, item) pairs: a stable sort that compares
    keys with [<] only, as Python's sort does. *)
Fixpoint insert_by_key {A} (x : Q * A) (l : list (Q * A)) : list (Q * A) :=
  match l with
  | [] => [x]
  | y :: l' => if Qltb (fst y) (fst x) then y :: insert_by_key x l'
               else x :: y :: l'
  end.

Fixpoint sorted {A} (l : list (Q * A)) : list (Q * A) :=
  match l with
  | [] => []
  | x :: l' => insert_by_key x (sorted l')
  end.

(** [d[k]] on the association list of [nn_param_choices]. *)
Fixpoint assoc {A} (k : string) (l : list (string * A)) : option A :=
  match l with
  | [] => None
  | (k', v) :: l' => if decide (k' = k) then Some v else assoc k l'
  end.

Section WithTape.

(** The outcomes of the global random generator. *)
Variable tape : nat -> N.

Definition draw : M N := fun s =>
  (Ok (tape (cursor s)), mkState (nets s) (dicts s) (S (cursor s))).

(** [random.random()]: a 53-bit integer over [2^53], in [[0, 1)]. *)
Definition random_random : M Q :=
  r <- draw ;;
  ret (Z.of_N (r mod 2 ^ 53) # 2 ^ 53).

(** [random.choice(seq)]. *)
Definition random_choice {A} (seq : list A) : M A :=
  match seq with
  | [] => raise IndexError
  | x :: _ =>
      r <- draw ;;
      ret (nth (N.to_nat (r mod N.of_nat (length seq))) seq x)
  end.

(** [random.randint(a, b)], both ends included. *)
Definition random_randint (a b : Z) : M Z :=
  if b <? a then raise ValueError
  else r <- draw ;; ret (a + Z.of_N r mod (b - a + 1)).

(** ** Reads and writes of the store *)

Definition get_net (n : ref) : M Network := fun s =>
  match nets s !! n with
  | Some o => (Ok o, s)
  | None => (Raise NoSuchObject, s)
  end.

Definition get_dict (d : ref) : M (gmap string value) := fun s =>
  match dicts s !! d with
  | Some m => (Ok m, s)
  | None => (Raise NoSuchObject, s)
  end.

(** [{}] *)
Definition new_dict : M ref := fun s =>
  (Ok (length (dicts s)), mkState (nets s) (dicts s ++ [∅]) (cursor s)).

(** [d[k]] *)
Definition dict_getitem (d : ref) (k : string) : M value :=
  m <- get_dict d ;;
  match m !! k with
  | Some v => ret v
  | None => raise KeyError
  end.

(** [d[k] = v] *)
Definition dict_setitem (d : ref) (k : string) (v : value) : M unit := fun s =>
  match dicts s !! d with
  | Some m => (Ok tt, mkState (nets s) (<[d := <[k := v]> m]> (dicts s)) (cursor s))
  | None => (Raise NoSuchObject, s)
  end.

(** Modelled from the spec: [Network(nn_param_choices)] followed by
    [create_set(child)], the factory's [create_from_mapping] of section 6,
    which "constructs a configuration from an explicit mapping".  The new
    object refers to the mapping it is given; its cost is not yet set. *)
Definition create_set (child : ref) : M ref := fun s =>
  (Ok (length (nets s)),
   mkState (nets s ++ [mkNetwork child None]) (dicts s) (cursor s)).

(** ** The optimizer *)

Variable self : Optimizer.

(** [fitness]: [return network.loss]. *)
Definition fitness (n : ref) : M Q :=
  o <- get_net n ;;
  match loss o with
  | Some c => ret c
  | None => raise AttributeError
  end.

(** [reduce(add, (self.fitness(network) for network in pop))]: the
    generator is consumed one genome at a time. *)
Fixpoint reduce_add (acc : double) (pop : list ref) : M double :=
  match pop with
  | [] => ret acc
  | n :: rest => y <- fitness n ;; reduce_add (dadd acc (Finite y)) rest
  end.

Definition grade (pop : list ref) : M double :=
  summed <- match pop with
            | [] => raise TypeError
            | n :: rest => x <- fitness n ;; reduce_add (Finite x) rest
            end ;;
  true_div summed (len pop).

(** [mutate] *)
Definition mutate (n : ref) : M ref :=
  mutation <- random_choice (map fst (nn_param_choices self)) ;;
  choices <- match assoc mutation (nn_param_choices self) with
             | Some c => ret c
             | None => raise KeyError
             end ;;
  v <- random_choice choices ;;
  o <- get_net n ;;
  dict_setitem (network o) mutation v ;;;
  ret n.

(** The inner loop of [breed]: one gene per parameter name. *)
Fixpoint pick_params (params : list string) (child mother father : ref) : M unit :=
  match params with
  | [] => ret tt
  | param :: rest =>
      mo <- get_net mother ;;
      a <- dict_getitem (network mo) param ;;
      fo <- get_net father ;;
      b <- dict_getitem (network fo) param ;;
      v <- random_choice [a; b] ;;
      dict_setitem child param v ;;;
      pick_params rest child mother father
  end.

(** The body of [for _ in range(2)]. *)
Definition breed_child (mother father : ref) : M ref :=
  child <- new_dict ;;
  pick_params (map fst (nn_param_choices self)) child mother father ;;;
  n <- create_set child ;;
  r <- random_random ;;
  if Qltb r (mutate_chance self) then mutate n else ret n.

Fixpoint breed_range (i : nat) (children : list ref) (mother father : ref)
  : M (list ref) :=
  match i with
  | O => ret children
  | S i' =>
      n <- breed_child mother father ;;
      breed_range i' (children ++ [n]) mother father
  end.

Definition breed (mother father : ref) : M (list ref) :=
  breed_range 2 [] mother father.

(** ** [evolve] *)

(** [[(self.fitness(network), network) for network in pop]] *)
Fixpoint grade_all (pop : list ref) : M (list (Q * ref)) :=
  match pop with
  | [] => ret []
  | n :: rest =>
      f <- fitness n ;;
      g <- grade_all rest ;;
      ret ((f, n) :: g)
  end.

(** [int(len(graded) * self.retain)] on the product itself, before any
    rounding. *)
Definition retain_length (graded : list ref) : Z :=
  py_int (inject_Z (len graded) * retain self)%Q.

(** [int(len(graded) * self.retain)] as the interpreter computes it: the
    length becomes a double, the product is rounded to a double, and
    [int] truncates that double. *)
Definition retain_length_double (graded : list ref) : M Z :=
  n <- to_double (len graded) ;;
  double_int (dmul (Finite n) (Finite (retain self))).

(** The loop over [graded[retain_length:]]. *)
Fixpoint select_random (rest parents : list ref) : M (list ref) :=
  match rest with
  | [] => ret parents
  | individual :: rest' =>
      r <- random_random ;;
      select_random rest'
        (if Qltb r (random_select self) then parents ++ [individual] else parents)
  end.

(** [for baby in babies: if len(children) < desired_length: ...] *)
Fixpoint add_babies (desired_length : Z) (babies children : list ref) : list ref :=
  match babies with
  | [] => children
  | baby :: babies' =>
      add_babies desired_length babies'
        (if len children <? desired_length then children ++ [baby] else children)
  end.

(** The [while] loop, one unit of fuel per iteration. *)
Fixpoint breed_loop (fuel : nat) (parents : list ref) (desired_length : Z)
    (children : list ref) : M (list ref) :=
  if len children <? desired_length then
    match fuel with
    | O => fun s => (OutOfFuel, s)
    | S fuel' =>
        male <- random_randint 0 (len parents - 1) ;;
        female <- random_randint 0 (len parents - 1) ;;
        if decide (male <> female) then
          male <- getitem parents male ;;
          female <- getitem parents female ;;
          babies <- breed male female ;;
          breed_loop fuel' parents desired_length
            (add_babies desired_length babies children)
        else breed_loop fuel' parents desired_length children
    end
  else ret children.

(** Selection: ranking, elitist retention and random retention, the bound
    of the elite slice being [retain_length]. *)
Definition select (pop : list ref) : M (list ref) :=
  graded <- grade_all pop ;;
  let graded := map snd (sorted graded) in
  let retain_length := retain_length graded in
  select_random (slice_from graded retain_length) (slice_to graded retain_length).

Definition evolve (fuel : nat) (pop : list ref) : M (list ref) :=
  parents <- select pop ;;
  let desired_length := len pop - len parents in
  children <- breed_loop fuel parents desired_length [] ;;
  ret (parents ++ children).

(** Selection and [evolve] with the bound of the elite slice computed in
    double precision. *)
Definition select_double (pop : list ref) : M (list ref) :=
  graded <- grade_all pop ;;
  let graded := map snd (sorted graded) in
  retain_length <- retain_length_double graded ;;
  select_random (slice_from graded retain_length) (slice_to graded retain_length).

Definition evolve_double (fuel : nat) (pop : list ref) : M (list ref) :=
  parents <- select_double pop ;;
  let desired_length := len pop - len parents in
  children <- breed_loop fuel parents desired_length [] ;;
  ret (parents ++ children).

End WithTape.

(** ** [__init__] *)

(** [Optimizer(nn_param_choices, retain=0.4, random_select=0.1,
    mutate_chance=0.2)]; a keyword argument that the caller leaves out is
    [None] here and takes the default of the signature. *)
Definition __init__ (nn_param_choices : list (string * list value))
    (retain random_select mutate_chance : option Q) : Optimizer :=
  mkOptimizer nn_param_choices
    (default (4 # 10) retain)
    (default (1 # 10) random_select)
    (default (2 # 10) mutate_chance).

(** ** [create_population] *)

Section CreatePopulation.

(** Modelled from the spec: [Network(self.nn_param_choices)] followed by
    [network.create_random()], the genome factory's
    [create_random() -> Genome] of section 6.  Class [Network] is not part
    of the sources, so the factory is a parameter of the generator. *)
Variable new_random_network : M ref.

(** The suspended generator: the number of items left in [range(count)]. *)
Record generator : Type := mkGenerator { remaining : nat }.

(** Calling [create_population(count)] runs nothing: it returns the
    generator.  [range(count)] is empty for [count <= 0]. *)
Definition create_population (count : Z) : generator :=
  mkGenerator (Z.to_nat count).

(** [next(g)]: one more turn of the [for] loop up to its [yield];
    [None] stands for [StopIteration]. *)
Definition next (g : generator) : M (option ref * generator) :=
  match remaining g with
  | O => ret (None, g)
  | S k => network <- new_random_network ;; ret (Some network, mkGenerator k)
  end.

(** [list(g)]: the generator run to its end. *)
Fixpoint list_items (k : nat) : M (list ref) :=
  match k with
  | O => ret []
  | S k' =>
      network <- new_random_network ;;
      rest <- list_items k' ;;
      ret (network :: rest)
  end.

Definition list_of (g : generator) : M (list ref) :=
  list_items (remaining g).

End CreatePopulation.

Section RandomNetwork.

Variable tape : nat -> N.

(** Modelled from the spec: the body of [create_random], which "produces
    a configuration satisfying a parameter space": every parameter gets
    one of its choices, drawn with [random.choice]. *)
Fixpoint fill_random (params : list (string * list value)) (d : ref) : M unit :=
  match params with
  | [] => ret tt
  | (k, choices) :: rest =>
      v <- random_choice tape choices ;;
      dict_setitem d k v ;;;
      fill_random rest d
  end.

(** Modelled from the spec: [Network(nn_param_choices)] and
    [create_random()] as one factory call, a new genome with a new
    mapping and no cost yet. *)
Definition random_network (self : Optimizer) : M ref :=
  d <- new_dict ;;
  fill_random (nn_param_choices self) d ;;;
  create_set d.

End RandomNetwork.

(** * Vocabulary of the statements *)

(** ** Costs and ranking *)

(** The cost attached to the genome behind a reference, if any. *)
Definition cost (s : state) (n : ref) : option Q :=
  match nets s !! n with
  | Some o => loss o
  | None => None
  end.

(** Every genome of [pop] was evaluated, with the costs [costs]. *)
Definition evaluated (s : state) (pop : list ref) (costs : list Q) : Prop :=
  Forall2 (fun n c => cost s n = Some c) pop costs.

(** The sum and the arithmetic mean of a list of rationals. *)
Definition Qsum (l : list Q) : Q := fold_right Qplus 0%Q l.

Definition mean (l : list Q) : Q := (Qsum l / inject_Z (len l))%Q.

(** The rational [q] is a double: rounding returns it. *)
Definition representable (q : Q) : Prop :=
  exists z, round_double q = Finite z /\ (z == q)%Q.

(** The double that a decimal literal denotes, as a rational. *)
Definition literal (q : Q) : Q :=
  match round_double q with
  | Finite z => z
  | _ => 0%Q
  end.

(** The sum of [c :: cs] as a loop of double additions computes it, from
    left to right. *)
Definition double_sum (c : Q) (cs : list Q) : double :=
  fold_left (fun acc y => dadd acc (Finite y)) cs (Finite c).

(** No addition of the sum of [acc :: cs] from left to right rounds. *)
Fixpoint exact_sums (acc : Q) (cs : list Q) : Prop :=
  match cs with
  | [] => True
  | y :: cs' => representable (acc + y)%Q /\ exact_sums (acc + y)%Q cs'
  end.

(** The genomes of [rest] that random selection keeps when its first draw
    is cell [c] of the tape: genome number [i] of [rest] is kept exactly
    when draw [c + i] is below [random_select]. *)
Fixpoint kept_at (tape : nat -> N) (self : Optimizer) (c : nat)
    (rest : list ref) : list ref :=
  match rest with
  | [] => []
  | individual :: rest' =>
      if Qltb (Z.of_N (tape c mod 2 ^ 53) # 2 ^ 53) (random_select self)
      then individual :: kept_at tape self (S c) rest'
      else kept_at tape self (S c) rest'
  end.

(** The order that [sorted] establishes on (key, item) pairs. *)
Definition key_le {A} (x y : Q * A) : Prop := (fst x <= fst y)%Q.

(** The population in ranking order, as [evolve] computes it from the
    costs: [[x[1] for x in sorted(graded, key=lambda x: x[0])]]. *)
Definition ranked (costs : list Q) (pop : list ref) : list ref :=
  map snd (sorted (combine costs pop)).

(** [a] costs no more than [b]. *)
Definition cost_le (s : state) (a b : ref) : Prop :=
  exists ca cb, cost s a = Some ca /\ cost s b = Some cb /\ (ca <= cb)%Q.

(** ** The parameter space and the mappings *)

(** [self.nn_param_choices.keys()], in insertion order. *)
Definition keys (self : Optimizer) : list string :=
  map fst (nn_param_choices self).

(** The space has a parameter, and every parameter has a value to choose. *)
Definition space_ok (self : Optimizer) : Prop :=
  nn_param_choices self <> [] /\
  Forall (fun p => snd p <> []) (nn_param_choices self).

(** [v] is one of the choices that [nn_param_choices] lists for [k]. *)
Definition admissible (self : Optimizer) (k : string) (v : value) : Prop :=
  exists choices, assoc k (nn_param_choices self) = Some choices /\ In v choices.

(** The parameter mapping of the genome behind a reference. *)
Definition mapping_of (s : state) (n : ref) : option (gmap string value) :=
  match nets s !! n with
  | Some o => dicts s !! network o
  | None => None
  end.

(** [mc'] is [mc] after the inner loop of [breed] over [params]: at every
    key of [params] it holds the value of one of the two parents, and
    elsewhere it is [mc]. *)
Definition crossed (params : list string) (mm mf mc mc' : gmap string value)
  : Prop :=
  forall k,
    (In k params ->
     exists v, mc' !! k = Some v /\ (mm !! k = Some v \/ mf !! k = Some v)) /\
    (~ In k params -> mc' !! k = mc !! k).

(** The mapping of a child of [mm] and [mf]: a crossover, after which
    [mutate] may have assigned one key. *)
Definition child_of (self : Optimizer) (mm mf child : gmap string value)
  : Prop :=
  exists mc,
    crossed (keys self) mm mf ∅ mc /\
    (child = mc \/
     (0 < mutate_chance self)%Q /\
     exists k v, In k (keys self) /\ admissible self k v /\
                 child = <[k := v]> mc).

(** Both parents are in the store and their mappings cover [params]. *)
Record parents_in (s : state) (params : list string) (mother father : ref)
    (mm mf : gmap string value) : Prop := {
  mother_net : exists o, nets s !! mother = Some o /\
                         dicts s !! network o = Some mm;
  father_net : exists o, nets s !! father = Some o /\
                         dicts s !! network o = Some mf;
  parents_cover : forall k, In k params -> is_Some (mm !! k) /\ is_Some (mf !! k)
}.

(** Every genome of [pop] is in the store, with a mapping that covers
    the keys of the parameter space. *)
Definition pop_ok (s : state) (self : Optimizer) (pop : list ref) : Prop :=
  forall p, In p pop ->
    exists o m, nets s !! p = Some o /\ dicts s !! network o = Some m /\
                forall k, In k (keys self) -> is_Some (m !! k).

(** ** States and weakest preconditions *)

(** [wp m Q s]: running [m] from [s] ends in an outcome and a state that
    satisfy [Q], whatever the outcome is. *)
Definition wp {A} (m : M A) (Q : outcome A -> state -> Prop) (s : state) : Prop :=
  Q (fst (m s)) (snd (m s)).

(** The state after one draw. *)
Definition bump (s : state) : state :=
  mkState (nets s) (dicts s) (S (cursor s)).

(** The state after a write to dict [d]. *)
Definition set_dict (s : state) (d : ref) (m : gmap string value) : state :=
  mkState (nets s) (<[d := m]> (dicts s)) (cursor s).

(** [s] holds every object of [s0], unchanged: the two stores of [s0]
    are prefixes of those of [s]. *)
Definition extends (s0 s : state) : Prop :=
  nets s0 `prefix_of` nets s /\ dicts s0 `prefix_of` dicts s.

(** [s] extends [s0], has the genome objects [N] and [L] mappings. *)
Definition keeps (s0 : state) (N : list Network) (L : nat) (s : state) : Prop :=
  extends s0 s /\ nets s = N /\ length (dicts s) = L.

(** A child made after [s0]: a genome object that [s0] did not have,
    whose mapping is one that [s0] did not have either. *)
Definition fresh_child (s0 s : state) (n : ref) : Prop :=
  (length (nets s0) <= n)%nat /\
  exists o, nets s !! n = Some o /\
            (length (dicts s0) <= network o)%nat /\
            is_Some (dicts s !! network o).

(** ** Random sources *)

(** A tape on which consecutive draws always differ. *)
Definition count_tape (i : nat) : N := N.of_nat i.

(** The constant tape: every draw is 0. *)
Definition zero_tape (_ : nat) : N := 0%N.

(** A tape on which the loop cannot draw equal indices forever: from
    every position on, some later pair of draws differs modulo [m]. *)
Definition fair (tape : nat -> N) : Prop :=
  forall (m : Z) (p : nat), 2 <= m ->
    exists k, Z.of_N (tape (p + 2 * k)%nat) mod m
              <> Z.of_N (tape (S (p + 2 * k))) mod m.

(** ** Concrete stores and configurations *)

(** A store with one genome that was never evaluated. *)
Definition unevaluated_store : state :=
  mkState [mkNetwork 0%nat None] [∅] 0%nat.

(** A store with two evaluated genomes, the example of the specification:
    A = {layers: 1, neurons: 16} of cost 0.9, B = {layers: 3, neurons: 64}
    of cost 0.2. *)
Definition genome_A : gmap string value :=
  <["layers"%string := VInt 1]> (<["neurons"%string := VInt 16]> ∅).

Definition genome_B : gmap string value :=
  <["layers"%string := VInt 3]> (<["neurons"%string := VInt 64]> ∅).

Definition two_store : state :=
  mkState [mkNetwork 0%nat (Some (9 # 10)); mkNetwork 1%nat (Some (2 # 10))]
          [genome_A; genome_B] 0%nat.

(** Four evaluated genomes, each with a mapping of its own. *)
Definition four_store : state :=
  mkState [mkNetwork 0%nat (Some (9 # 10)); mkNetwork 1%nat (Some (2 # 10));
           mkNetwork 2%nat (Some (1 # 10)); mkNetwork 3%nat (Some (3 # 10))]
          [genome_A; genome_B; genome_A; genome_B] 0%nat.

(** Three genomes whose costs are the doubles [0.1], [0.2] and [0.3]. *)
Definition tenths : list Q := [literal (1 # 10); literal (2 # 10); literal (3 # 10)].

Definition tenths_store : state :=
  mkState [mkNetwork 0%nat (Some (literal (1 # 10)));
           mkNetwork 1%nat (Some (literal (2 # 10)));
           mkNetwork 2%nat (Some (literal (3 # 10)))]
          [genome_A; genome_B; genome_A] 0%nat.

(** Ten evaluated genomes, genome [i] of cost [i]. *)
Definition ten_store : state :=
  mkState (map (fun i => mkNetwork i (Some (inject_Z (Z.of_nat i)))) (seq 0 10))
          (repeat genome_A 10) 0%nat.

(** Two genomes of cost [1e308] each. *)
Definition huge_store : state :=
  mkState [mkNetwork 0%nat (Some (literal (inject_Z (10 ^ 308))));
           mkNetwork 1%nat (Some (literal (inject_Z (10 ^ 308))))]
          [genome_A; genome_B] 0%nat.

(** The parameter space of the specification's example. *)
Definition example_space : list (string * list value) :=
  [("layers"%string, [VInt 1; VInt 2; VInt 3]);
   ("neurons"%string, [VInt 16; VInt 32; VInt 64])].

(** Keep half of the population, never select at random, always mutate. *)
Definition half_optimizer : Optimizer :=
  mkOptimizer example_space (1 # 2) 0 1.

(** [Optimizer(space, retain=0.7, random_select=0)] and
    [Optimizer(space, retain=0.58, random_select=0)]. *)
Definition retain_07_optimizer : Optimizer :=
  mkOptimizer example_space (literal (7 # 10)) 0 (literal (2 # 10)).

Definition retain_058_optimizer : Optimizer :=
  mkOptimizer example_space (literal (58 # 100)) 0 (literal (2 # 10)).

(** Keep the whole population. *)
Definition keep_all_optimizer : Optimizer :=
  mkOptimizer example_space 1 0 (2 # 10).

(** Keep nobody and select nobody at random. *)
Definition no_parent_optimizer : Optimizer :=
  mkOptimizer example_space 0 0 1.

(** ** Genomes that satisfy the parameter space *)

(** [m] gives every key of the parameter space an admissible value. *)
Definition valid_genome (self : Optimizer) (m : gmap string value) : Prop :=
  forall k, In k (keys self) -> exists v, m !! k = Some v /\ admissible self k v.

(** [m] is valid and has no key outside the parameter space. *)
Definition exact_genome (self : Optimizer) (m : gmap string value) : Prop :=
  valid_genome self m /\ forall k, ~ In k (keys self) -> m !! k = None.

(** Every genome of [pop] is in the store [s] with a valid mapping. *)
Definition valid_pop (self : Optimizer) (s : state) (pop : list ref) : Prop :=
  forall p, In p pop ->
    exists m, mapping_of s p = Some m /\ valid_genome self m.

(** Every genome of [pop] is in the store [s] with an exact mapping. *)
Definition exact_pop (self : Optimizer) (s : state) (pop : list ref) : Prop :=
  forall p, In p pop ->
    exists m, mapping_of s p = Some m /\ exact_genome self m.

(** [c] is in the store with a mapping that satisfies the space exactly. *)
Definition exact_in (self : Optimizer) (s : state) (c : ref) : Prop :=
  exists m, mapping_of s c = Some m /\ exact_genome self m.

(** A factory call creates one genome object and returns it. *)
Definition allocates (f : M ref) : Prop :=
  forall s, exists o s',
    f s = (Ok (length (nets s)), s') /\ nets s' = nets s ++ [o].

(** ** More stores and configurations *)


(** An optimizer without parameters that never mutates. *)
Definition empty_space_optimizer : Optimizer :=
  mkOptimizer [] (1 # 2) 0 0.

(** Five evaluated genomes, each with a mapping of its own. *)
Definition five_store : state :=
  mkState [mkNetwork 0%nat (Some (9 # 10)); mkNetwork 1%nat (Some (2 # 10));
           mkNetwork 2%nat (Some (1 # 10)); mkNetwork 3%nat (Some (3 # 10));
           mkNetwork 4%nat (Some (5 # 10))]
          [genome_A; genome_B; genome_A; genome_B; genome_A] 0%nat.

(** A store whose second genome was never evaluated. *)
Definition half_evaluated_store : state :=
  mkState [mkNetwork 0%nat (Some (9 # 10)); mkNetwork 1%nat None]
          [genome_A; genome_B] 0%nat.

(** A mapping without the "neurons" parameter. *)
Definition genome_layers_only : gmap string value :=
  <["layers"%string := VInt 2]> ∅.

(** Genome A and a genome that lacks "neurons". *)
Definition short_store : state :=
  mkState [mkNetwork 0%nat (Some (9 # 10)); mkNetwork 1%nat (Some (2 # 10))]
          [genome_A; genome_layers_only] 0%nat.

(** * Properties *)

(** ** The monad *)

Lemma bind_Ok {A B} (m : M A) (f : A -> M B) s a s' :
  m s = (Ok a, s') -> bind m f s = f a s'.
Proof. intros H. unfold bind. now rewrite H. Qed.

Lemma bind_Raise {A B} (m : M A) (f : A -> M B) s e s' :
  m s = (Raise e, s') -> bind m f s = (Raise e, s').
Proof. intros H. unfold bind. now rewrite H. Qed.

Lemma bind_OutOfFuel {A B} (m : M A) (f : A -> M B) s s' :
  m s = (OutOfFuel, s') -> bind m f s = (OutOfFuel, s').
Proof. intros H. unfold bind. now rewrite H. Qed.

Lemma bind_inv_Ok {A B} (m : M A) (f : A -> M B) s b s2 :
  bind m f s = (Ok b, s2) ->
  exists a s1, m s = (Ok a, s1) /\ f a s1 = (Ok b, s2).
Proof.
  unfold bind. destruct (m s) as [[a | e |] s1]; intros H; try discriminate.
  now exists a, s1.
Qed.

(** ** Rounding to a double *)

Lemma round_double_Qeq q q' : (q == q')%Q -> round_double q = round_double q'.
Proof. intros H. unfold round_double. now rewrite (Qred_complete _ _ H). Qed.

Lemma representable_Qeq q q' : (q == q')%Q -> representable q -> representable q'.
Proof.
  intros H (z & Hz & Hq). exists z. split.
  - now rewrite <- (round_double_Qeq _ _ H).
  - now rewrite Hq.
Qed.

Lemma round_half_even_le n d K :
  0 < d -> n <= K * d -> round_half_even n d <= K.
Proof.
  intros Hd Hn. unfold round_half_even.
  pose proof (Z.div_mod n d ltac:(lia)) as Hdm.
  pose proof (Z.mod_pos_bound n d Hd) as Hr.
  assert (Hq : n / d <= K) by (apply Z.div_le_upper_bound; lia).
  destruct (Z.eq_dec (n / d) K) as [E | NE].
  - assert (n mod d = 0) by nia.
    assert (E' : (2 * (n mod d) ?= d) = Lt) by (apply Z.compare_lt_iff; lia).
    rewrite E'. lia.
  - destruct (2 * (n mod d) ?= d); [destruct (Z.even (n / d)) | |]; lia.
Qed.

Lemma round_half_even_nonneg n d :
  0 <= n -> 0 < d -> 0 <= round_half_even n d.
Proof.
  intros Hn Hd. unfold round_half_even.
  pose proof (Z.div_pos n d Hn Hd).
  destruct (2 * (n mod d) ?= d); [destruct (Z.even (n / d)) | |]; lia.
Qed.

Lemma round_half_even_exact K d : 0 < d -> round_half_even (K * d) d = K.
Proof.
  intros Hd. unfold round_half_even.
  rewrite Z.mod_mul by lia. rewrite Z.div_mul by lia.
  assert (E : (2 * 0 ?= d) = Lt) by (apply Z.compare_lt_iff; lia).
  now rewrite E.
Qed.

Lemma log2_ratio_small n d :
  0 < n -> 0 < d -> n < d * 2 ^ 53 -> log2_ratio n d <= 52.
Proof.
  intros Hn Hd Hlt. unfold log2_ratio.
  pose proof (Z.log2_spec n Hn) as [Hn1 Hn2].
  pose proof (Z.log2_spec d Hd) as [Hd1 Hd2].
  pose proof (Z.log2_nonneg n). pose proof (Z.log2_nonneg d).
  set (a := Z.log2 n) in *. set (b := Z.log2 d) in *.
  destruct (Z.le_gt_cases (a - b) 53) as [Hs | Hbig].
  - destruct (Z.eq_dec (a - b) 53) as [E | NE].
    + rewrite E. simpl (0 <=? 53).
      destruct (Z.leb_spec (d * 2 ^ 53) n); [lia | simpl; lia].
    + destruct (if 0 <=? a - b then d * 2 ^ (a - b) <=? n
                else d <=? n * 2 ^ (- (a - b))); lia.
  - exfalso.
    assert (Ha : 2 ^ (Z.succ b) * 2 ^ 53 <= 2 ^ a).
    { rewrite <- Z.pow_add_r by lia. apply Z.pow_le_mono_r; lia. }
    nia.
Qed.

Lemma Qred_inject_Z n : Qred (inject_Z n) = inject_Z n.
Proof.
  unfold Qred, inject_Z.
  pose proof (Z.ggcd_gcd n 1) as Hg.
  pose proof (Z.ggcd_correct_divisors n 1) as Hd.
  destruct (Z.ggcd n 1) as [g [aa bb]]. simpl in *.
  rewrite Z.gcd_1_r in Hg. subst g. destruct Hd as [-> Hb].
  assert (bb = 1) as -> by lia. f_equal. lia.
Qed.

(** Rounding does not leave an interval whose ends are integers below
    [2 ^ 53]: a rational of [[0, B]] rounds to a finite double of
    [[0, B]]. *)
Lemma round_double_bounded q B :
  (0 <= q)%Q -> (q <= inject_Z B)%Q -> B < 2 ^ 53 ->
  exists z, round_double q = Finite z /\ (0 <= z)%Q /\ (z <= inject_Z B)%Q.
Proof.
  intros H0 HB Hsmall.
  rewrite <- (Qred_correct q) in H0, HB.
  unfold round_double.
  destruct (Qred q) as [n d]. clear q.
  unfold Qle in H0, HB. simpl in H0, HB. cbn [Qnum Qden].
  rewrite Z.mul_1_r in H0.
  rewrite Z.abs_eq by lia.
  destruct (Z.eqb_spec n 0) as [E | NE].
  { exists 0%Q. split; [reflexivity |]. split; [apply Qle_refl |].
    unfold Qle. simpl. nia. }
  assert (Hn : 0 < n) by lia.
  assert (Hd : 0 < Z.pos d) by lia.
  assert (HB0 : 0 < B) by nia.
  pose proof (log2_ratio_small n (Z.pos d) Hn Hd ltac:(nia)) as He.
  set (t := Z.max (log2_ratio n (Z.pos d) - 52) (-1074)).
  assert (Ht : t <= 0) by lia.
  assert (Hneg : (n <? 0) = false) by (apply Z.ltb_ge; lia).
  rewrite Hneg.
  assert (Hfinish : forall mag : Q, (0 <= mag)%Q -> (mag <= inject_Z B)%Q ->
            exists z, (if Qle_bool (inject_Z (2 ^ 1024)) mag then PosInf
                       else Finite mag) = Finite z /\
                      (0 <= z)%Q /\ (z <= inject_Z B)%Q).
  { intros mag Hm0 HmB.
    destruct (Qle_bool (inject_Z (2 ^ 1024)) mag) eqn:Eov.
    - exfalso. apply Qle_bool_iff in Eov.
      pose proof (Qle_trans _ _ _ Eov HmB) as Hc.
      rewrite <- Zle_Qle in Hc.
      assert (2 ^ 53 < 2 ^ 1024) by (apply Z.pow_lt_mono_r; lia). lia.
    - now exists mag. }
  destruct (Z.leb_spec 0 t) as [Ht0 | Ht0].
  - assert (t = 0) as -> by lia.
    apply Hfinish.
    + change 0%Q with (inject_Z 0). rewrite <- Zle_Qle.
      pose proof (round_half_even_nonneg n (Z.pos d * 2 ^ 0)). simpl in *. lia.
    + rewrite <- Zle_Qle.
      pose proof (round_half_even_le n (Z.pos d * 2 ^ 0) B). simpl in *. lia.
  - set (p := 2 ^ (- t)).
    assert (Hp : 0 < p) by (apply Z.pow_pos_nonneg; lia).
    apply Hfinish.
    + rewrite Qred_correct. unfold Qle. simpl.
      pose proof (round_half_even_nonneg (n * p) (Z.pos d)). nia.
    + rewrite Qred_correct. unfold Qle. simpl.
      rewrite Z2Pos.id by exact Hp.
      pose proof (round_half_even_le (n * p) (Z.pos d) (B * p)). nia.
Qed.

(** The integers below [2 ^ 53] are doubles. *)
Lemma round_double_int n :
  0 <= n < 2 ^ 53 -> round_double (inject_Z n) = Finite (inject_Z n).
Proof.
  intros [H0 H1].
  unfold round_double. rewrite Qred_inject_Z. cbn [inject_Z Qnum Qden].
  rewrite Z.abs_eq by lia.
  destruct (Z.eqb_spec n 0) as [-> | NE]; [reflexivity |].
  assert (Hn : 0 < n) by lia.
  pose proof (log2_ratio_small n 1 Hn ltac:(lia) ltac:(lia)) as He.
  set (t := Z.max (log2_ratio n 1 - 52) (-1074)).
  assert (Ht : t <= 0) by lia.
  assert (Hneg : (n <? 0) = false) by (apply Z.ltb_ge; lia).
  rewrite Hneg.
  assert (Hmag : (if 0 <=? t then inject_Z
                   ((if 0 <=? t then round_half_even n (1 * 2 ^ t)
                     else round_half_even (n * 2 ^ (- t)) 1) * 2 ^ t)
                  else Qred ((if 0 <=? t then round_half_even n (1 * 2 ^ t)
                     else round_half_even (n * 2 ^ (- t)) 1) # Z.to_pos (2 ^ (- t))))
                 = inject_Z n).
  { destruct (Z.leb_spec 0 t) as [Ht0 | Ht0].
    - assert (t = 0) as -> by lia.
      change (1 * 2 ^ 0) with 1. change (2 ^ 0) with 1.
      pose proof (round_half_even_exact n 1 ltac:(lia)) as Hx.
      rewrite Z.mul_1_r in Hx. rewrite Hx. now rewrite Z.mul_1_r.
    - set (p := 2 ^ (- t)).
      assert (Hp : 0 < p) by (apply Z.pow_pos_nonneg; lia).
      pose proof (round_half_even_exact (n * p) 1 ltac:(lia)) as Hx.
      rewrite Z.mul_1_r in Hx. rewrite Hx.
      rewrite <- Qred_inject_Z. apply Qred_complete.
      unfold Qeq. simpl. rewrite Z2Pos.id by exact Hp. lia. }
  rewrite Hmag.
  destruct (Qle_bool (inject_Z (2 ^ 1024)) (inject_Z n)) eqn:Eov; [| reflexivity].
  exfalso. apply Qle_bool_iff in Eov. rewrite <- Zle_Qle in Eov.
  assert (2 ^ 53 < 2 ^ 1024) by (apply Z.pow_lt_mono_r; lia). lia.
Qed.

Lemma to_double_small n s :
  0 <= n < 2 ^ 53 -> to_double n s = (Ok (inject_Z n), s).
Proof. intros H. unfold to_double. now rewrite (round_double_int n H). Qed.

Lemma true_div_small x n s :
  0 < n < 2 ^ 53 -> true_div x n s = (Ok (ddiv x (inject_Z n)), s).
Proof.
  intros H. unfold true_div.
  rewrite (bind_Ok _ _ _ _ _ (to_double_small n s ltac:(lia))).
  assert (E : Qeq_bool (inject_Z n) 0 = false).
  { apply not_true_iff_false. intros E. apply Qeq_bool_iff in E.
    unfold Qeq in E. simpl in E. lia. }
  now rewrite E.
Qed.

(** The doubles of some decimal literals, an addition that rounds, an
    overflow and the least subnormal number. *)
Example round_double_tenth :
  round_double (1 # 10) = Finite (3602879701896397 # 36028797018963968).
Proof. vm_compute. reflexivity. Qed.

Example dadd_tenth_fifth :
  dadd (Finite (literal (1 # 10))) (Finite (literal (2 # 10)))
    = Finite (1351079888211149 # 4503599627370496) /\
  round_double (3 # 10) = Finite (5404319552844595 # 18014398509481984).
Proof. vm_compute. split; reflexivity. Qed.

Example round_double_edges :
  round_double (inject_Z (10 ^ 309)) = PosInf /\
  round_double (- inject_Z (10 ^ 309)) = NegInf /\
  round_double (1 # Pos.pow 10 324) = Finite 0 /\
  round_double (5 # Pos.pow 10 324) = Finite (1 # Pos.pow 2 1074) /\
  round_double (inject_Z (2 ^ 53 + 1)) = Finite (inject_Z (2 ^ 53)) /\
  round_double (inject_Z (2 ^ 53 + 3)) = Finite (inject_Z (2 ^ 53 + 4)).
Proof. vm_compute. repeat split; reflexivity. Qed.

(** ** Costs of the genomes of a store *)

Lemma fitness_cost s n c : cost s n = Some c -> fitness n s = (Ok c, s).
Proof.
  unfold cost, fitness, bind, get_net. intros H.
  destruct (nets s !! n) as [o |]; [| discriminate].
  now rewrite H.
Qed.

Lemma reduce_add_sum s pop costs acc :
  evaluated s pop costs ->
  reduce_add acc pop s
    = (Ok (fold_left (fun a y => dadd a (Finite y)) costs acc), s).
Proof.
  intros H. revert acc. induction H as [| n c pop costs Hn _ IH]; intros acc.
  - reflexivity.
  - simpl. rewrite (bind_Ok _ _ _ _ _ (fitness_cost _ _ _ Hn)). apply IH.
Qed.

Lemma exact_sums_sum acc acc' cs :
  (acc' == acc)%Q -> exact_sums acc cs ->
  exists z, fold_left (fun a y => dadd a (Finite y)) cs (Finite acc') = Finite z /\
            (z == acc + Qsum cs)%Q.
Proof.
  revert acc acc'. induction cs as [| y cs IH]; intros acc acc' Heq Hex.
  - exists acc'. split; [reflexivity |]. simpl. rewrite Heq. ring.
  - destruct Hex as [(z1 & Hz1 & Hq1) Hex].
    destruct (IH (acc + y)%Q z1 Hq1 Hex) as (z & Hz & Hq).
    exists z. split.
    + simpl. rewrite (round_double_Qeq (acc' + y) (acc + y)) by now rewrite Heq.
      rewrite Hz1. exact Hz.
    + rewrite Hq. simpl. ring.
Qed.

(** ** [fitness] and [grade] *)

(** C9, as stated, fails: on a genome that was never evaluated [fitness]
    does not fail with [FitnessNotComputed]; the attribute read itself
    fails, with [AttributeError]. *)
Lemma fitness_unevaluated_not_FitnessNotComputed :
  fst (fitness 0%nat unevaluated_store) = Raise AttributeError /\
  fst (fitness 0%nat unevaluated_store) <> Raise FitnessNotComputed.
Proof. split; [reflexivity | discriminate]. Qed.

(** C9, amended: [fitness] returns the [loss] attribute of the genome as
    it is, without a check of its own and without touching the store; when
    the attribute was never set the read fails with [AttributeError], and
    no input makes [fitness] fail with [FitnessNotComputed]. *)
Theorem fitness_reads_loss (s : state) (n : ref) (o : Network) :
  nets s !! n = Some o ->
  (forall c, loss o = Some c -> fitness n s = (Ok c, s)) /\
  (loss o = None -> fitness n s = (Raise AttributeError, s)) /\
  fst (fitness n s) <> Raise FitnessNotComputed.
Proof.
  intros Hn. unfold fitness, bind, get_net. rewrite Hn.
  destruct (loss o) as [c |]; simpl.
  - split; [intros c' [= <-]; reflexivity |].
    split; [discriminate | discriminate].
  - split; [discriminate |].
    split; [reflexivity | discriminate].
Qed.

Lemma fitness_reads_loss_witness :
  nets unevaluated_store !! 0%nat = Some (mkNetwork 0%nat None) /\
  fitness 0%nat unevaluated_store = (Raise AttributeError, unevaluated_store).
Proof.
  split; [reflexivity |].
  apply (fitness_reads_loss unevaluated_store 0%nat (mkNetwork 0%nat None));
    reflexivity.
Defined.

(** C4, as stated, fails: grading the empty population does not fail with
    [EmptyPopulation]. *)
Lemma grade_empty_not_EmptyPopulation :
  fst (grade [] unevaluated_store) <> Raise EmptyPopulation.
Proof. discriminate. Qed.

(** C4, amended: [grade] applied to the empty population fails, with the
    [TypeError] that [reduce] raises on an empty iterable without an
    initial value, and leaves the store as it was. *)
Theorem grade_empty_TypeError (s : state) :
  grade [] s = (Raise TypeError, s).
Proof. reflexivity. Qed.

Lemma two_store_evaluated :
  evaluated two_store [0%nat; 1%nat] [9 # 10; 2 # 10]%Q.
Proof. unfold evaluated. repeat constructor. Qed.

Lemma tenths_store_evaluated :
  evaluated tenths_store [0%nat; 1%nat; 2%nat] tenths.
Proof. unfold evaluated. repeat constructor. Qed.

(** C3, as stated, fails: [grade] adds and divides in double precision.
    On three genomes whose costs are the doubles [0.1], [0.2] and [0.3] it
    returns the double [0.20000000000000004], which is neither the
    arithmetic mean of the three costs nor the double nearest to that
    mean; on two genomes of cost [1e308] it returns an infinity. *)
Lemma grade_not_the_mean :
  evaluated tenths_store [0%nat; 1%nat; 2%nat] tenths /\
  grade [0%nat; 1%nat; 2%nat] tenths_store
    = (Ok (Finite (7205759403792795 # 36028797018963968)), tenths_store) /\
  ~ (7205759403792795 # 36028797018963968 == mean tenths)%Q /\
  round_double (mean tenths) = Finite (literal (2 # 10)) /\
  fst (grade [0%nat; 1%nat] huge_store) = Ok PosInf.
Proof.
  split; [exact tenths_store_evaluated |].
  split; [vm_compute; reflexivity |].
  split; [vm_compute; discriminate |].
  split; vm_compute; reflexivity.
Qed.

(** C3, amended: on a population of fewer than [2 ^ 53] genomes that were
    all evaluated, with costs [c :: cs], [grade] returns the costs added
    in double precision from left to right and divided, in double
    precision, by the length of the population, and leaves the store as it
    was.  On a singleton population that is the cost of its genome when
    the cost is a double; and when no addition rounds and the arithmetic
    mean is a double, it is the arithmetic mean. *)
Theorem grade_double_mean (s : state) (pop : list ref) (c : Q) (cs : list Q) :
  evaluated s pop (c :: cs) ->
  len pop < 2 ^ 53 ->
  grade pop s = (Ok (ddiv (double_sum c cs) (inject_Z (len pop))), s) /\
  (cs = [] -> representable c ->
   exists z, grade pop s = (Ok (Finite z), s) /\ (z == c)%Q) /\
  (exact_sums c cs -> representable (mean (c :: cs)) ->
   exists z, grade pop s = (Ok (Finite z), s) /\ (z == mean (c :: cs))%Q).
Proof.
  intros Hev Hlen.
  assert (Hrun : grade pop s
                 = (Ok (ddiv (double_sum c cs) (inject_Z (len pop))), s)).
  { inversion Hev as [| n c' pop' cs' Hn Hrest]; subst.
    unfold grade.
    rewrite (bind_Ok _ _ s (double_sum c cs) s).
    - apply true_div_small. unfold len in *. simpl length in *. lia.
    - rewrite (bind_Ok _ _ _ _ _ (fitness_cost _ _ _ Hn)).
      exact (reduce_add_sum s pop' cs (Finite c) Hrest). }
  assert (Hmean : exact_sums c cs -> representable (mean (c :: cs)) ->
            exists z, grade pop s = (Ok (Finite z), s) /\ (z == mean (c :: cs))%Q).
  { intros Hex (z & Hz & Hq).
    destruct (exact_sums_sum c c cs (Qeq_refl c) Hex) as (z0 & Hz0 & Hq0).
    exists z. split; [| exact Hq].
    rewrite Hrun. unfold double_sum. rewrite Hz0. simpl.
    rewrite <- Hz. do 2 f_equal. apply round_double_Qeq.
    unfold mean. rewrite Hq0. unfold len.
    rewrite (Forall2_length _ _ _ Hev). reflexivity. }
  split; [exact Hrun |]. split; [| exact Hmean].
  intros -> Hc. destruct (Hmean I) as (z & Hz & Hq).
  - apply (representable_Qeq c); [| exact Hc].
    unfold mean, Qsum, len. simpl. field.
  - exists z. split; [exact Hz |].
    rewrite Hq. unfold mean, Qsum, len. simpl. field.
Qed.

Lemma grade_double_mean_witness :
  evaluated two_store [0%nat; 1%nat] [9 # 10; 2 # 10]%Q /\
  len [0%nat; 1%nat] < 2 ^ 53 /\
  grade [0%nat; 1%nat] two_store
    = (Ok (ddiv (double_sum (9 # 10) [2 # 10]%Q) (inject_Z 2)), two_store).
Proof.
  assert (H : len [0%nat; 1%nat] < 2 ^ 53) by reflexivity.
  refine (conj two_store_evaluated (conj H _)).
  exact (proj1 (grade_double_mean two_store [0%nat; 1%nat] (9 # 10) [2 # 10]%Q
                  two_store_evaluated H)).
Defined.

(** ** Ranking *)

Lemma Qltb_lt (x y : Q) : Qltb x y = true <-> (x < y)%Q.
Proof.
  unfold Qltb. rewrite negb_true_iff, <- not_true_iff_false, Qle_bool_iff.
  split; [apply Qnot_le_lt | apply Qlt_not_le].
Qed.

Lemma Qltb_ge (x y : Q) : Qltb x y = false <-> (y <= x)%Q.
Proof.
  unfold Qltb. rewrite negb_false_iff. apply Qle_bool_iff.
Qed.

Section Ranking.

Context {A : Type}.
Implicit Types (x : Q * A) (l : list (Q * A)).

Lemma insert_by_key_perm x l : Permutation (insert_by_key x l) (x :: l).
Proof.
  induction l as [| y l IH]; simpl; [reflexivity |].
  destruct (Qltb (fst y) (fst x)); [| reflexivity].
  rewrite IH. apply perm_swap.
Qed.

Lemma sorted_perm l : Permutation (sorted l) l.
Proof.
  induction l as [| x l IH]; simpl; [reflexivity |].
  rewrite insert_by_key_perm. now constructor.
Qed.

Lemma insert_by_key_sorted x l :
  StronglySorted key_le l -> StronglySorted key_le (insert_by_key x l).
Proof.
  induction 1 as [| y l Hl IH Hy]; simpl.
  - repeat constructor.
  - destruct (Qltb (fst y) (fst x)) eqn:E.
    + constructor; [exact IH |].
      rewrite insert_by_key_perm. constructor; [| exact Hy].
      apply Qlt_le_weak. now apply Qltb_lt.
    + apply Qltb_ge in E.
      constructor; [now constructor |].
      constructor; [exact E |].
      eapply Forall_impl; [exact Hy |].
      intros z Hz. unfold key_le in *. now apply Qle_trans with (fst y).
Qed.

Lemma sorted_sorted l : StronglySorted key_le (sorted l).
Proof.
  induction l as [| x l IH]; simpl; [constructor |].
  now apply insert_by_key_sorted.
Qed.

End Ranking.

(** Genomes of equal cost keep the order they had in the population. *)
Example sorted_stable :
  sorted [(1 # 2, 0%nat); (1 # 2, 1%nat); (1 # 4, 2%nat); (1 # 2, 3%nat)]%Q
    = [(1 # 4, 2%nat); (1 # 2, 0%nat); (1 # 2, 1%nat); (1 # 2, 3%nat)]%Q.
Proof. reflexivity. Qed.

Lemma StronglySorted_map {A B} (R : A -> A -> Prop) (R' : B -> B -> Prop)
    (f : A -> B) (P : A -> Prop) (l : list A) :
  (forall x y, P x -> P y -> R x y -> R' (f x) (f y)) ->
  Forall P l -> StronglySorted R l -> StronglySorted R' (map f l).
Proof.
  intros HR HP Hs. induction Hs as [| x l Hl IH Hx]; simpl; [constructor |].
  inversion HP as [| ? ? Px Pl]; subst.
  constructor; [now apply IH |].
  apply Forall_map. rewrite Forall_forall in *.
  intros y Hy. apply HR; auto.
Qed.

Lemma grade_all_evaluated s pop costs :
  evaluated s pop costs -> grade_all pop s = (Ok (combine costs pop), s).
Proof.
  induction 1 as [| n c pop costs Hn _ IH]; [reflexivity |].
  simpl. rewrite (bind_Ok _ _ _ _ _ (fitness_cost _ _ _ Hn)).
  now rewrite (bind_Ok _ _ _ _ _ IH).
Qed.

Lemma ranked_perm s pop costs :
  evaluated s pop costs -> Permutation (ranked costs pop) pop.
Proof.
  intros H. unfold ranked. rewrite sorted_perm.
  induction H; simpl; [reflexivity | now constructor].
Qed.

Lemma ranked_sorted s pop costs :
  evaluated s pop costs -> StronglySorted (cost_le s) (ranked costs pop).
Proof.
  intros H. unfold ranked.
  apply StronglySorted_map with (R := key_le)
    (P := fun p => cost s (snd p) = Some (fst p)).
  - intros [ca a] [cb b] Ha Hb Hab. now exists ca, cb.
  - rewrite sorted_perm.
    induction H; simpl; constructor; auto.
  - apply sorted_sorted.
Qed.

Lemma ranked_length s pop costs :
  evaluated s pop costs -> length (ranked costs pop) = length pop.
Proof. intros H. now rewrite (Permutation_length (ranked_perm _ _ _ H)). Qed.

(** ** Selection *)

Lemma py_int_floor (q : Q) : (0 <= q)%Q -> py_int q = Qfloor q.
Proof.
  destruct q as [n d]. unfold Qle, py_int, Qfloor. simpl. intros H.
  apply Z.quot_div_nonneg; lia.
Qed.

Lemma py_int_inject (q : Q) (z : Z) : (q == inject_Z z)%Q -> py_int q = z.
Proof.
  destruct q as [n d]. unfold Qeq, py_int. simpl. intros H.
  replace n with (z * Z.pos d) by lia.
  apply Z.quot_mul. lia.
Qed.

Lemma random_random_run tape s :
  exists r, random_random tape s
            = (Ok r, mkState (nets s) (dicts s) (S (cursor s))).
Proof. eexists. reflexivity. Qed.

Lemma select_random_run tape self rest parents s :
  exists extra,
    select_random tape self rest parents s
      = (Ok (parents ++ extra),
         mkState (nets s) (dicts s) (cursor s + length rest)%nat) /\
    sublist extra rest.
Proof.
  revert parents s. induction rest as [| i rest IH]; intros parents s.
  - exists []. split; [| constructor].
    simpl. unfold ret. rewrite app_nil_r, Nat.add_0_r. now destruct s.
  - destruct (random_random_run tape s) as (r & Hr).
    simpl. rewrite (bind_Ok _ _ _ _ _ Hr).
    match goal with |- context [select_random _ _ rest ?p ?s1] =>
      destruct (IH p s1) as (extra & Hrun & Hsub) end.
    simpl in Hrun. rewrite Hrun.
    replace (S (cursor s + length rest))%nat
      with (cursor s + S (length rest))%nat by lia.
    destruct (Qltb r (random_select self)).
    + exists (i :: extra). split; [now rewrite <- app_assoc |].
      now constructor.
    + exists extra. split; [reflexivity | now constructor].
Qed.

Lemma select_random_kept tape self rest parents s :
  select_random tape self rest parents s
    = (Ok (parents ++ kept_at tape self (cursor s) rest),
       mkState (nets s) (dicts s) (cursor s + length rest)%nat).
Proof.
  revert parents s. induction rest as [| i rest IH]; intros parents s.
  - simpl. unfold ret. rewrite app_nil_r, Nat.add_0_r. now destruct s.
  - cbn [select_random kept_at].
    rewrite (bind_Ok _ _ _ _ _
               (eq_refl : random_random tape s
                          = (Ok (Z.of_N (tape (cursor s) mod 2 ^ 53) # 2 ^ 53),
                             mkState (nets s) (dicts s) (S (cursor s))))).
    rewrite IH. cbn [nets dicts cursor].
    replace (S (cursor s) + length rest)%nat
      with (cursor s + length (i :: rest))%nat by (simpl; lia).
    destruct (Qltb (Z.of_N (tape (cursor s) mod 2 ^ 53) # 2 ^ 53)
                (random_select self)).
    + now rewrite <- app_assoc.
    + reflexivity.
Qed.

(** The bound of the elite slice in double precision: the product, rounded
    to a double, then truncated. *)
Lemma retain_length_double_run self (graded : list ref) s z :
  len graded < 2 ^ 53 ->
  round_double (inject_Z (len graded) * retain self) = Finite z ->
  retain_length_double self graded s = (Ok (py_int z), s).
Proof.
  intros Hlen Hz. unfold retain_length_double.
  rewrite (bind_Ok _ _ _ _ _
             (to_double_small (len graded) s ltac:(unfold len in *; lia))).
  unfold dmul. now rewrite Hz.
Qed.

(** When the product is a double the rounded bound is the bound of the
    product itself. *)
Lemma retain_length_double_representable self (graded : list ref) s :
  (0 <= retain self)%Q ->
  len graded < 2 ^ 53 ->
  representable (inject_Z (len graded) * retain self) ->
  retain_length_double self graded s = (Ok (retain_length self graded), s).
Proof.
  intros H0 Hlen (z & Hz & Hq).
  rewrite (retain_length_double_run self graded s z Hlen Hz).
  assert (Hpos : (0 <= inject_Z (len graded) * retain self)%Q).
  { apply Qmult_le_0_compat; [| exact H0].
    change 0%Q with (inject_Z 0). rewrite <- Zle_Qle. unfold len. lia. }
  unfold retain_length.
  rewrite !py_int_floor by (try rewrite Hq; exact Hpos).
  now rewrite Hq.
Qed.

(** Where the two bounds agree, selection and [evolve] with the rounded
    bound are selection and [evolve] with the bound of the product. *)
Lemma select_double_exact tape self s pop costs :
  evaluated s pop costs ->
  retain_length_double self (ranked costs pop) s
    = (Ok (retain_length self (ranked costs pop)), s) ->
  select_double tape self pop s = select tape self pop s.
Proof.
  intros Hev Hk. unfold select_double, select.
  rewrite !(bind_Ok _ _ _ _ _ (grade_all_evaluated _ _ _ Hev)).
  fold (ranked costs pop).
  now rewrite (bind_Ok _ _ _ _ _ Hk).
Qed.

Lemma evolve_double_exact tape self fuel s pop costs :
  evaluated s pop costs ->
  retain_length_double self (ranked costs pop) s
    = (Ok (retain_length self (ranked costs pop)), s) ->
  evolve_double tape self fuel pop s = evolve tape self fuel pop s.
Proof.
  intros Hev Hk. unfold evolve_double, evolve, bind.
  now rewrite (select_double_exact tape self s pop costs Hev Hk).
Qed.

(** C8, as stated, fails: [retain_length] is [int] of the product rounded
    to a double, not the floor of the product.  With 10 genomes and
    [retain = 0.7] the code keeps 7, and the floor of the product of 10
    and the double [0.7] is 6; with 50 genomes and [retain = 0.58] the
    code keeps 28, and the floor of 50 times 58/100 is 29.  On ten
    evaluated genomes the elite of the code is the 7 cheapest, one more
    than the floor gives. *)
Lemma retain_length_double_not_floor :
  fst (retain_length_double retain_07_optimizer (seq 0 10) ten_store) = Ok 7 /\
  Qfloor (inject_Z 10 * retain retain_07_optimizer) = 6 /\
  fst (retain_length_double retain_058_optimizer (seq 0 50) ten_store) = Ok 28 /\
  Qfloor (inject_Z 50 * (58 # 100)) = 29 /\
  fst (select_double count_tape retain_07_optimizer (seq 0 10) ten_store)
    = Ok (seq 0 7) /\
  fst (select count_tape retain_07_optimizer (seq 0 10) ten_store)
    = Ok (seq 0 6).
Proof. vm_compute. repeat split; reflexivity. Qed.

(** C8, amended: selection inside [evolve], for a retain rate in [[0, 1]]
    and an evaluated population of fewer than [2 ^ 53] genomes.  The
    ranking [graded] is a permutation of the population in ascending order
    of cost.  [retain_length] is a number [k] of [[0, N]]: the floor of
    the double [z] nearest to [N * retain], which is the floor of
    [N * retain] itself when that product is a double.  The parents are
    exactly the first [k] genomes of the ranking followed by the genomes
    of the rest whose draw is below [random_select], one draw per genome
    of the rest; and every one of the [k] elite genomes costs no more than
    every genome left out of the elite: retention selects minimal, not
    maximal, cost. *)
Theorem select_elite_double (tape : nat -> N) (self : Optimizer) (s : state)
    (pop : list ref) (costs : list Q) :
  evaluated s pop costs ->
  (0 <= retain self)%Q -> (retain self <= 1)%Q ->
  len pop < 2 ^ 53 ->
  let graded := ranked costs pop in
  exists (z : Q) (k : nat),
    Permutation graded pop /\
    StronglySorted (cost_le s) graded /\
    round_double (inject_Z (len pop) * retain self) = Finite z /\
    retain_length_double self graded s = (Ok (Z.of_nat k), s) /\
    Z.of_nat k = Qfloor z /\
    (k <= length pop)%nat /\
    (representable (inject_Z (len pop) * retain self) ->
     Z.of_nat k = Qfloor (inject_Z (len pop) * retain self)) /\
    select_double tape self pop s
      = (Ok (firstn k graded
             ++ kept_at tape self (cursor s) (skipn k graded)),
         mkState (nets s) (dicts s) (cursor s + (length pop - k))%nat) /\
    length (firstn k graded) = k /\
    (forall e x, In e (firstn k graded) -> In x (skipn k graded) ->
                 cost_le s e x).
Proof.
  intros Hev H0 H1 HN graded.
  assert (Hlen : length graded = length pop) by exact (ranked_length _ _ _ Hev).
  assert (HlenZ : len graded = len pop) by (unfold len; now rewrite Hlen).
  assert (Hpos : (0 <= inject_Z (len pop) * retain self)%Q).
  { apply Qmult_le_0_compat; [| exact H0].
    change 0%Q with (inject_Z 0). rewrite <- Zle_Qle. unfold len. lia. }
  assert (Hle : (inject_Z (len pop) * retain self <= inject_Z (len pop))%Q).
  { rewrite Qmult_comm.
    apply Qle_trans with (1 * inject_Z (len pop))%Q;
      [| rewrite Qmult_1_l; apply Qle_refl].
    apply Qmult_le_compat_r; [exact H1 |].
    change 0%Q with (inject_Z 0). rewrite <- Zle_Qle. unfold len. lia. }
  destruct (round_double_bounded _ (len pop) Hpos Hle HN)
    as (z & Hz & Hz0 & HzN).
  assert (Hf0 : 0 <= Qfloor z).
  { rewrite <- (Qfloor_Z 0). now apply Qfloor_resp_le. }
  assert (HfN : Qfloor z <= len pop).
  { rewrite <- (Qfloor_Z (len pop)). now apply Qfloor_resp_le. }
  assert (Hsorted : StronglySorted (cost_le s) graded)
    by exact (ranked_sorted _ _ _ Hev).
  set (k := Z.to_nat (Qfloor z)).
  assert (Hk : Z.of_nat k = Qfloor z) by (unfold k; lia).
  assert (HkN : (k <= length pop)%nat) by (unfold len in HfN; lia).
  assert (Hrun : retain_length_double self graded s = (Ok (Z.of_nat k), s)).
  { rewrite Hk, <- (py_int_floor z Hz0).
    apply retain_length_double_run; rewrite HlenZ; assumption. }
  exists z, k.
  split; [exact (ranked_perm _ _ _ Hev) |].
  split; [exact Hsorted |].
  split; [exact Hz |].
  split; [exact Hrun |].
  split; [exact Hk |].
  split; [exact HkN |].
  split.
  { intros (z' & Hz' & Hq). rewrite Hz in Hz'. injection Hz' as <-.
    rewrite Hk. now rewrite Hq. }
  split.
  { unfold select_double.
    rewrite (bind_Ok _ _ _ _ _ (grade_all_evaluated _ _ _ Hev)).
    fold (ranked costs pop). fold graded.
    rewrite (bind_Ok _ _ _ _ _ Hrun).
    unfold slice_from, slice_to.
    destruct (Z.ltb_spec (Z.of_nat k) 0) as [Hneg | _]; [lia |].
    rewrite Nat2Z.id, select_random_kept.
    now rewrite length_skipn, Hlen. }
  split; [rewrite length_firstn; lia |].
  intros e x He Hx.
  rewrite <- (firstn_skipn k graded) in Hsorted.
  apply (StronglySorted_app_1_elem_of _ _ _ _ _ Hsorted);
    now apply list_elem_of_In.
Qed.

Lemma select_elite_double_witness :
  evaluated two_store [0%nat; 1%nat] [9 # 10; 2 # 10]%Q /\
  (0 <= retain half_optimizer)%Q /\ (retain half_optimizer <= 1)%Q /\
  len [0%nat; 1%nat] < 2 ^ 53 /\
  StronglySorted (cost_le two_store) (ranked [9 # 10; 2 # 10]%Q [0%nat; 1%nat]).
Proof.
  assert (H0 : (0 <= retain half_optimizer)%Q) by discriminate.
  assert (H1 : (retain half_optimizer <= 1)%Q) by discriminate.
  assert (HN : len [0%nat; 1%nat] < 2 ^ 53) by reflexivity.
  refine (conj two_store_evaluated (conj H0 (conj H1 (conj HN _)))).
  destruct (select_elite_double count_tape half_optimizer two_store
              [0%nat; 1%nat] [9 # 10; 2 # 10]%Q two_store_evaluated H0 H1 HN)
    as (z & k & _ & Hsorted & _).
  exact Hsorted.
Defined.

(** ** The breeding loop leaves at once when nothing is wanted *)

Lemma breed_loop_done tape self fuel parents desired_length children s :
  desired_length <= len children ->
  breed_loop tape self fuel parents desired_length children s = (Ok children, s).
Proof.
  intros H. destruct fuel; simpl;
    (destruct (Z.ltb_spec (len children) desired_length); [lia | reflexivity]).
Qed.

(** C7: with [retain = 1.0], [random_select = 0] (a hypothesis the proof
    does not need: no genome is left to select at random) and an
    evaluated population, [evolve] returns the ranking of the population:
    a permutation of [pop], hence the same multiset of genomes, in
    ascending order of cost.  [desired_length] is 0, and for every amount
    of fuel, none included, the run leaves the store and the cursor of the
    random generator where they were: nothing was bred, nothing mutated
    and nothing drawn. *)
Theorem evolve_retain_all (tape : nat -> N) (self : Optimizer) (fuel : nat)
    (s : state) (pop : list ref) (costs : list Q) :
  evaluated s pop costs ->
  (retain self == 1)%Q ->
  (random_select self == 0)%Q ->
  evolve tape self fuel pop s = (Ok (ranked costs pop), s) /\
  Permutation (ranked costs pop) pop /\
  StronglySorted (cost_le s) (ranked costs pop) /\
  len pop - len (ranked costs pop) = 0.
Proof.
  intros Hev Hretain _.
  assert (Hlen : length (ranked costs pop) = length pop)
    by exact (ranked_length _ _ _ Hev).
  assert (Hsel : select tape self pop s = (Ok (ranked costs pop), s)).
  { unfold select. rewrite (bind_Ok _ _ _ _ _ (grade_all_evaluated _ _ _ Hev)).
    fold (ranked costs pop).
    assert (Hk : retain_length self (ranked costs pop)
                 = len (ranked costs pop)).
    { unfold retain_length. apply py_int_inject.
      rewrite Hretain. apply Qmult_1_r. }
    rewrite Hk. unfold slice_from, slice_to, len.
    destruct (Z.ltb_spec (Z.of_nat (length (ranked costs pop))) 0); [lia |].
    rewrite Nat2Z.id, firstn_all, skipn_all. reflexivity. }
  assert (Hd : len pop - len (ranked costs pop) = 0) by (unfold len; lia).
  repeat split.
  - unfold evolve. rewrite (bind_Ok _ _ _ _ _ Hsel). rewrite Hd.
    rewrite (bind_Ok _ _ s [] s).
    + unfold ret. now rewrite app_nil_r.
    + apply breed_loop_done. unfold len. simpl. lia.
  - exact (ranked_perm _ _ _ Hev).
  - exact (ranked_sorted _ _ _ Hev).
  - exact Hd.
Qed.

Lemma evolve_retain_all_witness :
  evaluated two_store [0%nat; 1%nat] [9 # 10; 2 # 10]%Q /\
  (retain keep_all_optimizer == 1)%Q /\
  (random_select keep_all_optimizer == 0)%Q /\
  evolve count_tape keep_all_optimizer 0 [0%nat; 1%nat] two_store
    = (Ok [1%nat; 0%nat], two_store).
Proof.
  assert (H1 : (retain keep_all_optimizer == 1)%Q) by reflexivity.
  assert (H0 : (random_select keep_all_optimizer == 0)%Q) by reflexivity.
  refine (conj two_store_evaluated (conj H1 (conj H0 _))).
  exact (proj1 (evolve_retain_all count_tape keep_all_optimizer 0 two_store
                  [0%nat; 1%nat] [9 # 10; 2 # 10]%Q
                  two_store_evaluated H1 H0)).
Defined.

(** ** Weakest preconditions *)

Lemma wp_run {A} (m : M A) Q s o s' : m s = (o, s') -> Q o s' -> wp m Q s.
Proof. intros H HQ. unfold wp. now rewrite H. Qed.

Lemma wp_mono {A} (m : M A) (Q Q' : outcome A -> state -> Prop) s :
  wp m Q s -> (forall o s', Q o s' -> Q' o s') -> wp m Q' s.
Proof. unfold wp. auto. Qed.

Lemma wp_bind {A B} (m : M A) (f : A -> M B) Q s :
  wp m (fun o s1 => match o with
                    | Ok a => wp (f a) Q s1
                    | Raise e => Q (Raise e) s1
                    | OutOfFuel => Q OutOfFuel s1
                    end) s ->
  wp (bind m f) Q s.
Proof. unfold wp, bind. destruct (m s) as [[a | e |] s1]; simpl; auto. Qed.

Lemma wp_ret {A} (a : A) Q s : Q (Ok a) s -> wp (ret a) Q s.
Proof. auto. Qed.

Lemma wp_raise {A} e (Q : outcome A -> state -> Prop) s :
  Q (Raise e) s -> wp (raise e) Q s.
Proof. auto. Qed.

Section Primitives.

Variable tape : nat -> N.

Lemma wp_draw Q s : Q (Ok (tape (cursor s))) (bump s) -> wp (draw tape) Q s.
Proof. auto. Qed.

Lemma wp_random_random Q s :
  (forall r, (0 <= r)%Q -> (r < 1)%Q -> Q (Ok r) (bump s)) ->
  wp (random_random tape) Q s.
Proof.
  intros H. apply H.
  - generalize (tape (cursor s) mod 2 ^ 53)%N. intros y.
    unfold Qle. cbn [Qnum Qden]. lia.
  - assert (Hlt : (tape (cursor s) mod 2 ^ 53 < 2 ^ 53)%N)
      by (apply N.mod_lt; discriminate).
    revert Hlt. generalize (tape (cursor s) mod 2 ^ 53)%N. intros y Hlt.
    unfold Qlt. cbn [Qnum Qden].
    change (Z.pos (2 ^ 53)) with (Z.of_N (2 ^ 53)). lia.
Qed.

Lemma choice_index_lt (r : N) (n : nat) :
  n <> 0%nat -> (N.to_nat (r mod N.of_nat n) < n)%nat.
Proof.
  intros Hn. assert (r mod N.of_nat n < N.of_nat n)%N; [| lia].
  apply N.mod_lt. lia.
Qed.

Lemma wp_random_choice {A} (seq : list A) Q s :
  (forall x, In x seq -> Q (Ok x) (bump s)) ->
  (seq = [] -> Q (Raise IndexError) s) ->
  wp (random_choice tape seq) Q s.
Proof.
  intros Hin Hnil. destruct seq as [| x seq]; [now apply Hnil |].
  unfold random_choice. apply wp_bind, wp_draw, wp_ret, Hin.
  apply nth_In. now apply choice_index_lt.
Qed.

Lemma wp_random_randint a b Q s :
  (a <= b -> Q (Ok (a + Z.of_N (tape (cursor s)) mod (b - a + 1))) (bump s)) ->
  (b < a -> Q (Raise ValueError) s) ->
  wp (random_randint tape a b) Q s.
Proof.
  intros Hok Herr. unfold random_randint.
  destruct (Z.ltb_spec b a); [now apply Herr |].
  now apply wp_bind, wp_draw, wp_ret, Hok.
Qed.

Lemma wp_get_net n Q s :
  (forall o, nets s !! n = Some o -> Q (Ok o) s) ->
  (nets s !! n = None -> Q (Raise NoSuchObject) s) ->
  wp (get_net n) Q s.
Proof.
  intros Hok Herr. unfold wp, get_net.
  destruct (nets s !! n) as [o |]; simpl; auto.
Qed.

Lemma wp_dict_getitem d k Q s :
  (forall m v, dicts s !! d = Some m -> m !! k = Some v -> Q (Ok v) s) ->
  (dicts s !! d = None -> Q (Raise NoSuchObject) s) ->
  (forall m, dicts s !! d = Some m -> m !! k = None -> Q (Raise KeyError) s) ->
  wp (dict_getitem d k) Q s.
Proof.
  intros Hok Hno Hkey. unfold wp, dict_getitem, bind, get_dict.
  destruct (dicts s !! d) as [m |] eqn:Hd; simpl; [| auto].
  destruct (m !! k) as [v |] eqn:Hk; simpl; eauto.
Qed.

Lemma wp_dict_setitem d k v Q s :
  (forall m, dicts s !! d = Some m -> Q (Ok tt) (set_dict s d (<[k := v]> m))) ->
  (dicts s !! d = None -> Q (Raise NoSuchObject) s) ->
  wp (dict_setitem d k v) Q s.
Proof.
  intros Hok Herr. unfold wp, dict_setitem.
  destruct (dicts s !! d) as [m |]; simpl.
  - exact (Hok m eq_refl).
  - exact (Herr eq_refl).
Qed.

Lemma wp_getitem {A} (l : list A) (i : Z) Q s :
  (forall x, In x l -> (0 <= i -> l !! Z.to_nat i = Some x) -> Q (Ok x) s) ->
  Q (Raise IndexError) s ->
  wp (getitem l i) Q s.
Proof.
  intros Hok Herr. unfold getitem.
  set (j := if i <? 0 then len l + i else i).
  assert (Hj : 0 <= i -> j = i).
  { intros Hi. unfold j. destruct (Z.ltb_spec i 0); [lia | reflexivity]. }
  clearbody j.
  destruct (j <? 0); [exact Herr |].
  destruct (l !! Z.to_nat j) as [x |] eqn:E; [| exact Herr].
  apply wp_ret, Hok.
  - apply list_elem_of_In. eapply list_elem_of_lookup_2, E.
  - intros Hi. now rewrite <- (Hj Hi).
Qed.

End Primitives.

Lemma wp_elim {A} (m : M A) Q s : wp m Q s -> exists o s', m s = (o, s') /\ Q o s'.
Proof. intros H. exists (fst (m s)), (snd (m s)). split; [apply surjective_pairing | exact H]. Qed.

(** ** The parameter space *)

Lemma assoc_keys {A} (k : string) (l : list (string * A)) :
  In k (map fst l) -> exists c, assoc k l = Some c /\ In (k, c) l.
Proof.
  induction l as [| [k' c'] l IH]; simpl; [tauto |].
  intros Hin. destruct (decide (k' = k)) as [-> | Hne].
  - exists c'. auto.
  - destruct Hin as [-> | Hin]; [congruence |].
    destruct (IH Hin) as (c & Hc & Hl). exists c. auto.
Qed.

(** ** [mutate] *)

Lemma mutate_spec tape self n o m s (Q : outcome ref -> state -> Prop) :
  space_ok self ->
  nets s !! n = Some o ->
  dicts s !! network o = Some m ->
  (forall k v, In k (keys self) -> admissible self k v ->
     Q (Ok n) (set_dict (bump (bump s)) (network o) (<[k := v]> m))) ->
  wp (mutate tape self n) Q s.
Proof.
  intros [Hne Hdom] Hn Hd HQ. unfold mutate.
  apply wp_bind, wp_random_choice; [| intros E; now apply map_eq_nil in E].
  intros k Hk. destruct (assoc_keys _ _ Hk) as (choices & Hc & Hin).
  rewrite Hc. apply wp_bind, wp_ret.
  apply wp_bind, wp_random_choice.
  - intros v Hv. apply wp_bind, wp_get_net; simpl; [| congruence].
    intros o' Ho'. assert (o' = o) as -> by congruence.
    apply wp_bind, wp_dict_setitem; simpl; [| congruence].
    intros m' Hm'. assert (m' = m) as -> by congruence.
    apply wp_ret, HQ; [exact Hk |]. now exists choices.
  - intros ->. rewrite Forall_forall in Hdom.
    exfalso. apply (Hdom (k, [])); [now apply list_elem_of_In | reflexivity].
Qed.

(** C6, as stated, fails: the value drawn for the chosen key can be the
    one it already has, and then no key changes.  On genome A of the
    example, with draws that pick "layers" and its first choice 1, [mutate]
    returns the genome with every mapping of the store as it was. *)
Lemma mutate_may_change_nothing :
  fst (mutate zero_tape half_optimizer 0%nat two_store) = Ok 0%nat /\
  dicts (snd (mutate zero_tape half_optimizer 0%nat two_store)) = dicts two_store /\
  ~ (exists k, mapping_of (snd (mutate zero_tape half_optimizer 0%nat two_store)) 0%nat
                 ≫= (fun m => m !! k)
               <> mapping_of two_store 0%nat ≫= (fun m => m !! k)).
Proof.
  assert (H : dicts (snd (mutate zero_tape half_optimizer 0%nat two_store))
              = dicts two_store) by (vm_compute; reflexivity).
  split; [reflexivity |]. split; [exact H |].
  intros (k & Hk). apply Hk. unfold mapping_of. now rewrite H.
Qed.

(** C6, amended: for a parameter space with at least one key and no
    empty choice list, and every outcome of the random source, [mutate]
    returns the genome it was given after assigning exactly one key of the
    parameter space a value admissible for that key (which may be the
    value the key already had, so at most one key's value changes); the
    values at all other keys, every other mapping and every genome object
    of the store are left unchanged. *)
Theorem mutate_one_key (tape : nat -> N) (self : Optimizer) (s : state)
    (n : ref) (o : Network) (m : gmap string value) :
  space_ok self ->
  nets s !! n = Some o ->
  dicts s !! network o = Some m ->
  exists k v s' m',
    mutate tape self n s = (Ok n, s') /\
    In k (keys self) /\ admissible self k v /\
    nets s' = nets s /\
    mapping_of s' n = Some m' /\
    m' !! k = Some v /\
    (forall k', k' <> k -> m' !! k' = m !! k') /\
    (forall d, d <> network o -> dicts s' !! d = dicts s !! d).
Proof.
  intros Hsp Hn Hd.
  destruct (wp_elim (mutate tape self n)
              (fun r s' => exists k v, r = Ok n /\ In k (keys self) /\
                 admissible self k v /\
                 s' = set_dict (bump (bump s)) (network o) (<[k := v]> m)) s)
    as (r & s' & Hrun & k & v & -> & Hk & Hv & ->).
  { apply (mutate_spec tape self n o m s); auto. intros k v Hk Hv.
    exists k, v. auto. }
  exists k, v. eexists. exists (<[k := v]> m).
  split; [exact Hrun |]. split; [exact Hk |]. split; [exact Hv |].
  split; [reflexivity |]. split.
  { unfold mapping_of. simpl. rewrite Hn.
    apply list_lookup_insert_eq. eapply lookup_lt_Some, Hd. }
  split; [apply lookup_insert_eq |]. split.
  - intros k' Hk'. now apply lookup_insert_ne.
  - intros d Hne. simpl. now apply list_lookup_insert_ne.
Qed.

Lemma half_optimizer_space_ok : space_ok half_optimizer.
Proof. split; [discriminate |]. repeat constructor; discriminate. Qed.

Lemma mutate_one_key_witness :
  space_ok half_optimizer /\
  nets two_store !! 0%nat = Some (mkNetwork 0%nat (Some (9 # 10))) /\
  dicts two_store !! 0%nat = Some genome_A /\
  exists k v s' m',
    mutate count_tape half_optimizer 0%nat two_store = (Ok 0%nat, s') /\
    In k (keys half_optimizer) /\ admissible half_optimizer k v /\
    nets s' = nets two_store /\
    mapping_of s' 0%nat = Some m' /\
    m' !! k = Some v /\
    (forall k', k' <> k -> m' !! k' = genome_A !! k') /\
    (forall d, d <> 0%nat -> dicts s' !! d = dicts two_store !! d).
Proof.
  refine (conj half_optimizer_space_ok (conj eq_refl (conj eq_refl _))).
  exact (mutate_one_key count_tape half_optimizer two_store 0%nat
           (mkNetwork 0%nat (Some (9 # 10))) genome_A
           half_optimizer_space_ok eq_refl eq_refl).
Defined.

(** ** [breed] *)

Lemma parents_in_tail s p params mother father mm mf :
  parents_in s (p :: params) mother father mm mf ->
  parents_in s params mother father mm mf.
Proof. intros [Hm Hf Hc]. split; auto. intros k Hk. apply Hc. now right. Qed.

Lemma pick_params_spec tape params c mother father mm mf :
  forall s mc (Q : outcome unit -> state -> Prop),
    parents_in s params mother father mm mf ->
    (forall o, nets s !! mother = Some o -> c <> network o) ->
    (forall o, nets s !! father = Some o -> c <> network o) ->
    dicts s !! c = Some mc ->
    (forall mc' cur, crossed params mm mf mc mc' ->
       Q (Ok tt) (mkState (nets s) (<[c := mc']> (dicts s)) cur)) ->
    wp (pick_params tape params c mother father) Q s.
Proof.
  induction params as [| param rest IH]; intros s mc Q Hin Hcm Hcf Hc HQ.
  - simpl. apply wp_ret.
    replace s with (mkState (nets s) (<[c := mc]> (dicts s)) (cursor s)).
    + apply HQ. intros k. split; [intros [] | reflexivity].
    + rewrite list_insert_id by exact Hc. now destruct s.
  - assert (Hin' := Hin). destruct Hin' as [(om & Hom & Hmm) (ofa & Hof & Hmf) Hcov].
    destruct (Hcov param (or_introl eq_refl)) as [[a Ha] [b Hb]].
    cbn [pick_params].
    apply wp_bind, wp_get_net; [| congruence].
    intros o1 Ho1. assert (o1 = om) as -> by congruence.
    apply wp_bind, wp_dict_getitem; [| congruence | congruence].
    intros m1 a' Hm1 Ha'. assert (m1 = mm) as -> by congruence.
    assert (a' = a) as -> by congruence.
    apply wp_bind, wp_get_net; [| congruence].
    intros o2 Ho2. assert (o2 = ofa) as -> by congruence.
    apply wp_bind, wp_dict_getitem; [| congruence | congruence].
    intros m2 b' Hm2 Hb'. assert (m2 = mf) as -> by congruence.
    assert (b' = b) as -> by congruence.
    apply wp_bind, wp_random_choice; [| discriminate]. intros v Hv.
    apply wp_bind, wp_dict_setitem; simpl; [| congruence].
    intros m3 Hm3. assert (m3 = mc) as -> by congruence.
    assert (Hlt : (c < length (dicts s))%nat) by (eapply lookup_lt_Some, Hc).
    apply (IH _ (<[param := v]> mc)); simpl.
    + destruct (parents_in_tail _ _ _ _ _ _ _ Hin) as [_ _ Hcov'].
      split; [exists om | exists ofa | exact Hcov']; simpl;
        (split; [assumption |]);
        rewrite list_lookup_insert_ne; auto.
    + exact Hcm.
    + exact Hcf.
    + now apply list_lookup_insert_eq.
    + intros mc' cur Hcr. rewrite list_insert_insert_eq. apply HQ.
      intros k. destruct (Hcr k) as [Hk1 Hk2]. split.
      * intros [<- | Hk]; [| now apply Hk1].
        destruct (In_dec String.string_dec param rest) as [Hr | Hr]; [now apply Hk1 |].
        exists v. rewrite (Hk2 Hr), lookup_insert_eq. split; [reflexivity |].
        destruct Hv as [<- | [<- | []]]; auto.
      * intros Hk. rewrite Hk2 by (intros Hr; apply Hk; now right).
        apply lookup_insert_ne. intros ->. apply Hk. now left.
Qed.

Lemma extends_refl s : extends s s.
Proof. split; reflexivity. Qed.

Lemma extends_trans s0 s1 s2 : extends s0 s1 -> extends s1 s2 -> extends s0 s2.
Proof. intros [H1 H2] [H3 H4]. split; etrans; eauto. Qed.

Lemma extends_bump s0 s : extends s0 s -> extends s0 (bump s).
Proof. auto. Qed.

Lemma parents_in_extends s0 s params mother father mm mf :
  extends s0 s ->
  parents_in s0 params mother father mm mf ->
  parents_in s params mother father mm mf.
Proof.
  intros [Hn Hd] [(om & Hom & Hmm) (ofa & Hof & Hmf) Hcov].
  split; [exists om | exists ofa | exact Hcov];
    split; eapply prefix_lookup_Some; eauto.
Qed.

Lemma insert_snoc {A} (l : list A) (x y : A) :
  <[length l := x]> (l ++ [y]) = l ++ [x].
Proof. rewrite insert_app_r_alt, Nat.sub_diag by lia. reflexivity. Qed.

Lemma wp_new_dict Q s :
  Q (Ok (length (dicts s))) (mkState (nets s) (dicts s ++ [∅]) (cursor s)) ->
  wp new_dict Q s.
Proof. auto. Qed.

Lemma wp_create_set child Q s :
  Q (Ok (length (nets s)))
    (mkState (nets s ++ [mkNetwork child None]) (dicts s) (cursor s)) ->
  wp (create_set child) Q s.
Proof. auto. Qed.

Lemma breed_child_spec tape self mother father mm mf s
    (Q : outcome ref -> state -> Prop) :
  space_ok self ->
  parents_in s (keys self) mother father mm mf ->
  (forall child cur, child_of self mm mf child ->
     Q (Ok (length (nets s)))
       (mkState (nets s ++ [mkNetwork (length (dicts s)) None])
                (dicts s ++ [child]) cur)) ->
  wp (breed_child tape self mother father) Q s.
Proof.
  intros Hsp Hin HQ. unfold breed_child.
  apply wp_bind, wp_new_dict, wp_bind.
  assert (Hin' := Hin). destruct Hin' as [(om & Hom & Hmm) (ofa & Hof & Hmf) _].
  apply (pick_params_spec tape _ _ _ _ mm mf _ ∅); simpl.
  - apply (parents_in_extends s); [| exact Hin].
    split; simpl; [reflexivity | now apply prefix_app_r].
  - intros o Ho. assert (o = om) as -> by congruence.
    apply lookup_lt_Some in Hmm. lia.
  - intros o Ho. assert (o = ofa) as -> by congruence.
    apply lookup_lt_Some in Hmf. lia.
  - now apply list_lookup_middle.
  - intros mc cur Hcr. rewrite insert_snoc.
    apply wp_bind, wp_create_set, wp_bind, wp_random_random.
    intros r Hr0 Hr1. simpl.
    destruct (Qltb r (mutate_chance self)) eqn:E.
    + apply (mutate_spec tape self _ (mkNetwork (length (dicts s)) None) mc);
        simpl; [exact Hsp | now apply list_lookup_middle
               | now apply list_lookup_middle |].
      intros k v Hk Hv. unfold set_dict. simpl. rewrite insert_snoc.
      apply HQ. exists mc. split; [exact Hcr |]. right. split.
      * apply Qle_lt_trans with r; [exact Hr0 | now apply Qltb_lt].
      * now exists k, v.
    + apply wp_ret, HQ. exists mc. split; [exact Hcr | now left].
Qed.

Lemma breed_spec tape self mother father mm mf s
    (Q : outcome (list ref) -> state -> Prop) :
  space_ok self ->
  parents_in s (keys self) mother father mm mf ->
  (forall child1 child2 cur,
     child_of self mm mf child1 -> child_of self mm mf child2 ->
     Q (Ok [length (nets s); S (length (nets s))])
       (mkState (nets s ++ [mkNetwork (length (dicts s)) None;
                            mkNetwork (S (length (dicts s))) None])
                (dicts s ++ [child1; child2]) cur)) ->
  wp (breed tape self mother father) Q s.
Proof.
  intros Hsp Hin HQ. unfold breed. cbn [breed_range].
  apply wp_bind, (breed_child_spec tape self mother father mm mf); auto.
  intros child1 cur1 Hc1.
  apply wp_bind, (breed_child_spec tape self mother father mm mf); auto.
  - apply (parents_in_extends s); [| exact Hin].
    split; simpl; now apply prefix_app_r.
  - intros child2 cur2 Hc2. simpl. apply wp_ret.
    rewrite !length_app, <- !app_assoc. simpl. rewrite !Nat.add_1_r.
    now apply HQ.
Qed.

Lemma child_of_values self mm mf child :
  child_of self mm mf child ->
  (forall k, In k (keys self) ->
     exists v, child !! k = Some v /\
               (mm !! k = Some v \/ mf !! k = Some v \/ admissible self k v)) /\
  ((mutate_chance self <= 0)%Q ->
   forall k, In k (keys self) ->
     exists v, child !! k = Some v /\ (mm !! k = Some v \/ mf !! k = Some v)).
Proof.
  intros (mc & Hcr & [-> | (Hpos & k0 & v0 & Hk0 & Hv0 & ->)]).
  - split.
    + intros k Hk. destruct (proj1 (Hcr k) Hk) as (v & Hv & Hor).
      exists v. tauto.
    + intros _ k Hk. exact (proj1 (Hcr k) Hk).
  - split.
    + intros k Hk. destruct (decide (k0 = k)) as [<- | Hne].
      * exists v0. rewrite lookup_insert_eq. auto.
      * destruct (proj1 (Hcr k) Hk) as (v & Hv & Hor).
        exists v. rewrite lookup_insert_ne by exact Hne. tauto.
    + intros Hle. exfalso. exact (Qlt_not_le _ _ Hpos Hle).
Qed.

Lemma lookup_snoc2_1 {A} (l : list A) (x y : A) :
  (l ++ [x; y]) !! length l = Some x.
Proof. now apply list_lookup_middle. Qed.

Lemma lookup_snoc2_2 {A} (l : list A) (x y : A) :
  (l ++ [x; y]) !! S (length l) = Some y.
Proof.
  rewrite lookup_app_r by lia.
  now replace (S (length l) - length l)%nat with 1%nat by lia.
Qed.

(** C5, as stated, fails: [breed] mutates a child with probability
    [mutate_chance], and a mutated child can hold a value of neither
    parent.  On the example of the specification, with [mutate_chance = 1]
    and the draws 0, 1, 2, ..., the first child gets layers = 1 from A and
    neurons = 64 from B and is then mutated at "neurons" to 32, which is
    neither A's 16 nor B's 64. *)
Lemma breed_child_value_of_neither_parent :
  fst (breed count_tape half_optimizer 0%nat 1%nat two_store)
    = Ok [2%nat; 3%nat] /\
  mapping_of (snd (breed count_tape half_optimizer 0%nat 1%nat two_store)) 2%nat
    ≫= (fun m => m !! "neurons"%string) = Some (VInt 32) /\
  mapping_of two_store 0%nat ≫= (fun m => m !! "neurons"%string)
    = Some (VInt 16) /\
  mapping_of two_store 1%nat ≫= (fun m => m !! "neurons"%string)
    = Some (VInt 64).
Proof. repeat split; vm_compute; reflexivity. Qed.

(** C5, amended: for parents in the store whose mappings cover the keys
    of a parameter space with at least one key and no empty choice list,
    [breed] returns exactly 2 children, fresh genomes with fresh mappings.
    Each child is a crossover (at every key the value of one of the two
    parents) in which [mutate] may afterwards have assigned one key an
    admissible value; so at every key a child holds A's value, B's value
    or an admissible value written by mutation, and when
    [mutate_chance <= 0] it always holds A's or B's value. *)
Theorem breed_two_children (tape : nat -> N) (self : Optimizer) (s : state)
    (mother father : ref) (mm mf : gmap string value) :
  space_ok self ->
  parents_in s (keys self) mother father mm mf ->
  exists c1 c2 s',
    breed tape self mother father s = (Ok [c1; c2], s') /\
    forall c, In c [c1; c2] ->
      exists child,
        nets s !! c = None /\
        mapping_of s' c = Some child /\
        child_of self mm mf child /\
        (forall k, In k (keys self) ->
           exists v, child !! k = Some v /\
             (mm !! k = Some v \/ mf !! k = Some v \/ admissible self k v)) /\
        ((mutate_chance self <= 0)%Q ->
         forall k, In k (keys self) ->
           exists v, child !! k = Some v /\
                     (mm !! k = Some v \/ mf !! k = Some v)).
Proof.
  intros Hsp Hin.
  destruct (wp_elim (breed tape self mother father)
    (fun r s' => exists child1 child2,
       r = Ok [length (nets s); S (length (nets s))] /\
       child_of self mm mf child1 /\ child_of self mm mf child2 /\
       mapping_of s' (length (nets s)) = Some child1 /\
       mapping_of s' (S (length (nets s))) = Some child2) s)
    as (r & s' & Hrun & ch1 & ch2 & -> & H1 & H2 & Hm1 & Hm2).
  { apply (breed_spec tape self mother father mm mf); auto.
    intros child1 child2 cur H1 H2. exists child1, child2.
    repeat split; auto; unfold mapping_of; simpl.
    - rewrite lookup_snoc2_1. simpl. apply lookup_snoc2_1.
    - rewrite lookup_snoc2_2. simpl. apply lookup_snoc2_2. }
  exists (length (nets s)), (S (length (nets s))), s'.
  split; [exact Hrun |].
  intros c [<- | [<- | []]].
  - exists ch1. destruct (child_of_values _ _ _ _ H1).
    split; [apply lookup_ge_None_2; lia | auto].
  - exists ch2. destruct (child_of_values _ _ _ _ H2).
    split; [apply lookup_ge_None_2; lia | auto].
Qed.

Lemma two_store_parents :
  parents_in two_store (keys half_optimizer) 0%nat 1%nat genome_A genome_B.
Proof.
  split.
  - now exists (mkNetwork 0%nat (Some (9 # 10))).
  - now exists (mkNetwork 1%nat (Some (2 # 10))).
  - intros k [<- | [<- | []]]; split; eexists; vm_compute; reflexivity.
Qed.

Lemma breed_two_children_witness :
  space_ok half_optimizer /\
  parents_in two_store (keys half_optimizer) 0%nat 1%nat genome_A genome_B /\
  exists c1 c2 s',
    breed count_tape half_optimizer 0%nat 1%nat two_store = (Ok [c1; c2], s').
Proof.
  refine (conj half_optimizer_space_ok (conj two_store_parents _)).
  destruct (breed_two_children count_tape half_optimizer two_store 0%nat 1%nat
              genome_A genome_B half_optimizer_space_ok two_store_parents)
    as (c1 & c2 & s' & Hrun & _).
  now exists c1, c2, s'.
Defined.

(** ** What [evolve] may touch *)

Lemma wp_any {A} (m : M A) (Q : outcome A -> state -> Prop) s :
  (forall o s', Q o s') -> wp m Q s.
Proof. intros H. apply H. Qed.

Lemma keeps_bump s0 N L s : keeps s0 N L s -> keeps s0 N L (bump s).
Proof. auto. Qed.

Lemma prefix_insert_ge {A} (l l' : list A) (i : nat) (x : A) :
  l `prefix_of` l' -> (length l <= i)%nat -> l `prefix_of` <[i := x]> l'.
Proof.
  intros [k ->] Hi. rewrite insert_app_r_alt by exact Hi.
  now apply prefix_app_r.
Qed.

Lemma keeps_set_dict s0 N L s d m :
  keeps s0 N L s -> (length (dicts s0) <= d)%nat -> keeps s0 N L (set_dict s d m).
Proof.
  intros ([Hn Hd] & HN & HL) Hge. repeat split; simpl; auto.
  - now apply prefix_insert_ge.
  - now rewrite length_insert.
Qed.

Create HintDb frame.
#[local] Hint Resolve keeps_bump keeps_set_dict : frame.

Section Frames.

Variable tape : nat -> N.
Variable self : Optimizer.

Lemma pick_params_frame s0 N L c mother father params :
  (length (dicts s0) <= c)%nat ->
  forall s, keeps s0 N L s ->
    wp (pick_params tape params c mother father)
       (fun _ s' => keeps s0 N L s') s.
Proof.
  intros Hc. induction params as [| param rest IH]; intros s Hs.
  - exact Hs.
  - cbn [pick_params].
    apply wp_bind, wp_get_net; [intros o1 _ | auto].
    apply wp_bind, wp_dict_getitem; [intros _ a _ _ | auto | auto].
    apply wp_bind, wp_get_net; [intros o2 _ | auto].
    apply wp_bind, wp_dict_getitem; [intros _ b _ _ | auto | auto].
    apply wp_bind, wp_random_choice; [intros v _ | auto].
    apply wp_bind, wp_dict_setitem; [intros m _ | auto with frame].
    apply IH. auto with frame.
Qed.

Lemma mutate_frame s0 N L n s :
  keeps s0 N L s ->
  (forall o, nets s !! n = Some o -> (length (dicts s0) <= network o)%nat) ->
  wp (mutate tape self n)
     (fun r s' => keeps s0 N L s' /\ forall a, r = Ok a -> a = n) s.
Proof.
  intros Hs Hn. unfold mutate.
  assert (Herr : forall e s', keeps s0 N L s' ->
            keeps s0 N L s' /\ forall a, @Raise ref e = Ok a -> a = n)
    by (intros; split; [assumption | discriminate]).
  apply wp_bind, wp_random_choice; [intros k _ | auto].
  destruct (assoc k (nn_param_choices self)) as [choices |];
    [| apply wp_bind, wp_raise; auto with frame].
  apply wp_bind, wp_ret.
  apply wp_bind, wp_random_choice; [intros v _ | auto with frame].
  apply wp_bind, wp_get_net; [intros o Ho | auto with frame].
  apply wp_bind, wp_dict_setitem; [intros m _ | auto with frame].
  apply wp_ret. split; [| now intros a [= <-]].
  apply keeps_set_dict; [auto with frame |]. now apply Hn.
Qed.

Lemma fresh_child_base s0 s1 s n :
  extends s0 s1 -> fresh_child s1 s n -> fresh_child s0 s n.
Proof.
  intros [Hn Hd] (Hge & o & Ho & Hdo & Hm).
  apply prefix_length in Hn, Hd.
  split; [lia |]. exists o. repeat split; auto. lia.
Qed.

Lemma fresh_child_extends s0 s s' n :
  extends s s' -> fresh_child s0 s n -> fresh_child s0 s' n.
Proof.
  intros [Hn Hd] (Hge & o & Ho & Hdo & m & Hm).
  split; [exact Hge |]. exists o. repeat split; auto.
  - eapply prefix_lookup_Some; eauto.
  - exists m. eapply prefix_lookup_Some; eauto.
Qed.

Lemma breed_child_frame mother father s :
  wp (breed_child tape self mother father)
     (fun r s' => extends s s' /\ forall n, r = Ok n -> fresh_child s s' n) s.
Proof.
  unfold breed_child.
  assert (Herr : forall e s', keeps s (nets s) (S (length (dicts s))) s' ->
            extends s s' /\ forall n, @Raise ref e = Ok n -> fresh_child s s' n)
    by (intros e s' [H _]; split; [exact H | discriminate]).
  apply wp_bind, wp_new_dict, wp_bind.
  eapply wp_mono.
  { apply (pick_params_frame s (nets s) (S (length (dicts s))));
      [reflexivity |].
    repeat split; simpl; [reflexivity | now apply prefix_app_r |].
    rewrite length_app. simpl. lia. }
  intros [[] | e |] s1 Hs1; simpl;
    [| now apply Herr | destruct Hs1 as [H _]; split; [exact H | discriminate]].
  destruct Hs1 as ([Hn1 Hd1] & HN1 & HL1).
  apply wp_bind, wp_create_set, wp_bind, wp_random_random. intros r _ _.
  set (s2 := bump _).
  assert (Hnew : nets s2 !! length (nets s)
                 = Some (mkNetwork (length (dicts s)) None)).
  { subst s2. simpl. rewrite HN1. now apply list_lookup_middle. }
  assert (Hk2 : keeps s (nets s1 ++ [mkNetwork (length (dicts s)) None])
                  (S (length (dicts s))) s2).
  { subst s2. repeat split; simpl; auto. now apply prefix_app_r. }
  assert (Hfresh : forall s', keeps s (nets s2) (S (length (dicts s))) s' ->
            fresh_child s s' (length (nets s))).
  { intros s' ([_ Hd'] & HN' & HL'). split; [lia |].
    exists (mkNetwork (length (dicts s)) None).
    rewrite HN'. split; [exact Hnew |]. split; [simpl; lia |].
    simpl. apply lookup_lt_is_Some. lia. }
  rewrite HN1.
  destruct (Qltb r (mutate_chance self)).
  - eapply wp_mono.
    + apply (mutate_frame s _ _ _ s2 Hk2).
      intros o Ho. rewrite Hnew in Ho. injection Ho as <-. reflexivity.
    + intros o s' [Hs' Hret]. split; [apply Hs' |].
      intros n ->. rewrite (Hret n eq_refl). now apply Hfresh.
  - apply wp_ret. split; [apply Hk2 |].
    intros n [= <-]. now apply Hfresh.
Qed.

End Frames.

Section EvolveFrame.

Variable tape : nat -> N.
Variable self : Optimizer.

Lemma breed_range_frame mother father i :
  forall children s0 s,
    extends s0 s -> Forall (fresh_child s0 s) children ->
    wp (breed_range tape self i children mother father)
       (fun r s' => extends s0 s' /\
                    forall l, r = Ok l -> Forall (fresh_child s0 s') l) s.
Proof.
  induction i as [| i IH]; intros children s0 s Hext Hch.
  - apply wp_ret. split; [exact Hext |]. now intros l [= <-].
  - cbn [breed_range]. apply wp_bind.
    eapply wp_mono; [apply breed_child_frame |].
    intros [n | e |] s1 [Hs1 Hn]; simpl;
      try (split; [eapply extends_trans; eauto | discriminate]).
    apply IH; [eapply extends_trans; eauto |].
    apply Forall_app. split.
    + eapply Forall_impl; [exact Hch |].
      intros c. now apply fresh_child_extends.
    + constructor; [| constructor].
      eapply fresh_child_base; [exact Hext | now apply Hn].
Qed.

Lemma breed_frame mother father s :
  wp (breed tape self mother father)
     (fun r s' => extends s s' /\
                  forall l, r = Ok l -> Forall (fresh_child s s') l) s.
Proof. apply breed_range_frame; [apply extends_refl | constructor]. Qed.

Lemma add_babies_Forall (P : ref -> Prop) d babies :
  forall children,
    Forall P babies -> Forall P children -> Forall P (add_babies d babies children).
Proof.
  induction babies as [| b babies IH]; intros children Hb Hc; [exact Hc |].
  inversion Hb; subst. simpl. apply IH; [assumption |].
  destruct (len children <? d); [| exact Hc].
  apply Forall_app. auto.
Qed.

Lemma breed_loop_frame parents d s0 fuel :
  forall children s,
    extends s0 s -> Forall (fresh_child s0 s) children ->
    wp (breed_loop tape self fuel parents d children)
       (fun r s' => extends s0 s' /\
                    forall l, r = Ok l -> Forall (fresh_child s0 s') l) s.
Proof.
  induction fuel as [| fuel IH]; intros children s Hext Hch;
    cbn [breed_loop]; destruct (len children <? d);
    try (apply wp_ret; split; [exact Hext | now intros l [= <-]]).
  - split; [exact Hext | discriminate].
  - assert (Herr : forall e s', extends s0 s' ->
              extends s0 s' /\
              forall l, @Raise (list ref) e = Ok l -> Forall (fresh_child s0 s') l)
      by (intros; split; [assumption | discriminate]).
    apply wp_bind, wp_random_randint; [intros _ | auto].
    apply wp_bind, wp_random_randint; [intros _ | auto].
    assert (Hext2 : extends s0 (bump (bump s))) by exact Hext.
    assert (Hch2 : Forall (fresh_child s0 (bump (bump s))) children) by exact Hch.
    destruct (decide _); [| now apply IH].
    apply wp_bind, wp_getitem; [intros male _ _ | auto].
    apply wp_bind, wp_getitem; [intros female _ _ | auto].
    apply wp_bind. eapply wp_mono; [apply breed_frame |].
    intros [babies | e |] s1 [Hs1 Hb]; simpl;
      try (split; [eapply extends_trans; eauto | discriminate]).
    apply IH; [eapply extends_trans; eauto |].
    apply add_babies_Forall.
    + eapply Forall_impl; [exact (Hb _ eq_refl) |].
      intros c. now apply fresh_child_base.
    + eapply Forall_impl; [exact Hch2 |].
      intros c. now apply fresh_child_extends.
Qed.

Lemma wp_fitness n Q s :
  (forall o, Q o s) -> wp (fitness n) Q s.
Proof.
  intros HQ. unfold fitness. apply wp_bind, wp_get_net; [intros o _ | auto].
  destruct (loss o); [apply wp_ret | apply wp_raise]; auto.
Qed.

Lemma grade_all_frame pop s :
  wp (grade_all pop)
     (fun r s' => s' = s /\ forall g, r = Ok g -> map snd g = pop) s.
Proof.
  induction pop as [| n pop IH].
  - apply wp_ret. split; [reflexivity | now intros g [= <-]].
  - cbn [grade_all]. apply wp_bind, wp_fitness.
    intros [f | e |]; try (split; [reflexivity | discriminate]).
    apply wp_bind. eapply wp_mono; [exact IH |].
    intros [g | e |] s' [-> Hg]; simpl;
      try (split; [reflexivity | discriminate]).
    apply wp_ret. split; [reflexivity |].
    intros g' [= <-]. simpl. now rewrite (Hg g eq_refl).
Qed.

Lemma slices_sublist {A} (g : list A) (k : Z) (extra : list A) :
  extra `sublist_of` slice_from g k ->
  slice_to g k ++ extra `sublist_of` g.
Proof.
  unfold slice_from, slice_to. intros H.
  destruct (k <? 0);
    match goal with |- firstn ?i g ++ _ `sublist_of` _ =>
      pose proof (sublist_app (firstn i g) (firstn i g) _ _ (reflexivity _) H)
        as Happ;
      now rewrite firstn_skipn in Happ
    end.
Qed.

(** Selection reads the store and draws numbers; the parents it returns
    are genomes of the population, none of them twice as often as the
    population has it. *)
Lemma select_frame pop s :
  wp (select tape self pop)
     (fun r s' => nets s' = nets s /\ dicts s' = dicts s /\
                  forall parents, r = Ok parents ->
                    exists g, Permutation g pop /\ parents `sublist_of` g) s.
Proof.
  unfold select. apply wp_bind.
  eapply wp_mono; [apply grade_all_frame |].
  intros [g | e |] s' [-> Hg]; simpl;
    try (split; [reflexivity | split; [reflexivity | discriminate]]).
  match goal with |- wp (select_random _ _ ?rest ?elite) _ _ =>
    destruct (select_random_run tape self rest elite s) as (extra & Hrun & Hsub)
  end.
  eapply wp_run; [exact Hrun |]. simpl.
  split; [reflexivity |]. split; [reflexivity |].
  intros parents [= <-].
  exists (map snd (sorted g)). split.
  - rewrite sorted_perm. now rewrite (Hg g eq_refl).
  - now apply slices_sublist.
Qed.

End EvolveFrame.

Lemma extends_same s s' :
  nets s' = nets s -> dicts s' = dicts s -> extends s s'.
Proof. intros Hn Hd. split; [now rewrite Hn | now rewrite Hd]. Qed.

Lemma mapping_of_extends s s' n m :
  extends s s' -> mapping_of s n = Some m -> mapping_of s' n = Some m.
Proof.
  intros [Hn Hd]. unfold mapping_of.
  destruct (nets s !! n) as [o |] eqn:Ho; [| discriminate].
  rewrite (prefix_lookup_Some _ _ _ _ Ho Hn). intros Hm.
  exact (prefix_lookup_Some _ _ _ _ Hm Hd).
Qed.

Lemma evolve_wp_frame tape self fuel pop s :
  wp (evolve tape self fuel pop)
     (fun r s' =>
        extends s s' /\
        forall pop', r = Ok pop' ->
          exists parents children,
            pop' = parents ++ children /\
            (exists g, Permutation g pop /\ parents `sublist_of` g) /\
            Forall (fresh_child s s') children) s.
Proof.
  unfold evolve. apply wp_bind.
  eapply wp_mono; [apply select_frame |].
  intros [parents | e |] s1 (Hn & Hd & Hp); simpl;
    try (split; [now apply extends_same | discriminate]).
  apply wp_bind. eapply wp_mono.
  { apply (breed_loop_frame tape self parents _ s fuel [] s1);
      [now apply extends_same | constructor]. }
  intros [children | e |] s2 [Hext Hch]; simpl;
    try (split; [exact Hext | discriminate]).
  apply wp_ret. split; [exact Hext |].
  intros pop' [= <-]. exists parents, children. auto.
Qed.

(** C10: whatever the population, the configuration, the draws and the
    fuel, and whether the run returns, raises or is cut off, [evolve]
    leaves every genome object and every parameter mapping that the store
    held at the call as it was; in particular the mapping of every genome
    of the input population is unchanged.  When the run returns, its
    result is a list of parents followed by a list of children: the
    parents are genomes of the input population (the references
    themselves), and every child is an object created during the run
    whose mapping was created during the run too, so no write of [breed]
    or [mutate] lands in a parent. *)
Theorem evolve_preserves_parents (tape : nat -> N) (self : Optimizer)
    (fuel : nat) (pop : list ref) (s : state) :
  let r := evolve tape self fuel pop s in
  nets s `prefix_of` nets (snd r) /\
  dicts s `prefix_of` dicts (snd r) /\
  (forall n m, mapping_of s n = Some m -> mapping_of (snd r) n = Some m) /\
  (forall pop', fst r = Ok pop' ->
     exists parents children,
       pop' = parents ++ children /\
       (forall p, In p parents -> In p pop) /\
       (forall c, In c children ->
          nets s !! c = None /\
          exists o, nets (snd r) !! c = Some o /\
                    dicts s !! network o = None /\
                    is_Some (dicts (snd r) !! network o))).
Proof.
  intros r. destruct (evolve_wp_frame tape self fuel pop s) as [Hext Hok].
  fold r in Hext, Hok.
  split; [apply Hext |]. split; [apply Hext |]. split.
  - intros n m. now apply mapping_of_extends.
  - intros pop' Hr.
    destruct (Hok pop' Hr) as (parents & children & -> & (g & Hg & Hsub) & Hch).
    exists parents, children. split; [reflexivity |]. split.
    + intros p Hp. apply list_elem_of_In. rewrite <- Hg.
      eapply elem_of_sublist; [| exact Hsub]. now apply list_elem_of_In.
    + intros c Hc. rewrite Forall_forall in Hch.
      destruct (Hch c (proj2 (list_elem_of_In _ _) Hc))
        as (Hge & o & Ho & Hdo & Hm).
      split; [now apply lookup_ge_None_2 |].
      exists o. split; [exact Ho |]. split; [now apply lookup_ge_None_2 | exact Hm].
Qed.

(** ** The breeding loop *)

Section BreedLoop.

Variable tape : nat -> N.
Variable self : Optimizer.

Lemma random_randint_run a b s :
  a <= b ->
  random_randint tape a b s
    = (Ok (a + Z.of_N (tape (cursor s)) mod (b - a + 1)), bump s).
Proof.
  intros H. unfold random_randint.
  destruct (Z.ltb_spec b a); [lia | reflexivity].
Qed.

Lemma getitem_run {A} (l : list A) (i : Z) (x : A) s :
  0 <= i -> l !! Z.to_nat i = Some x -> getitem l i s = (Ok x, s).
Proof.
  intros Hi Hx. unfold getitem.
  assert (E : (i <? 0) = false) by (apply Z.ltb_ge; lia).
  rewrite E. simpl. rewrite E. now rewrite Hx.
Qed.

(** One iteration of the [while] loop when a parent exists: the two
    indices are the next two draws modulo the number of parents. *)
Lemma breed_loop_step fuel parents d children s :
  len children < d ->
  1 <= len parents ->
  let male := Z.of_N (tape (cursor s)) mod len parents in
  let female := Z.of_N (tape (S (cursor s))) mod len parents in
  breed_loop tape self (S fuel) parents d children s =
    if decide (male <> female) then
      (male <- getitem parents male ;;
       female <- getitem parents female ;;
       babies <- breed tape self male female ;;
       breed_loop tape self fuel parents d (add_babies d babies children))
        (bump (bump s))
    else breed_loop tape self fuel parents d children (bump (bump s)).
Proof.
  intros Hlt Hp male female. cbn [breed_loop].
  destruct (Z.ltb_spec (len children) d); [| lia].
  rewrite (bind_Ok _ _ _ _ _ (random_randint_run 0 (len parents - 1) s ltac:(lia))).
  rewrite (bind_Ok _ _ _ _ _
             (random_randint_run 0 (len parents - 1) (bump s) ltac:(lia))).
  replace (len parents - 1 - 0 + 1) with (len parents) by lia.
  rewrite !Z.add_0_l. subst male female. cbn [cursor bump].
  destruct (decide _); reflexivity.
Qed.

(** With no parent, the first draw of an index fails. *)
Lemma breed_loop_no_parent fuel d s :
  0 < d ->
  breed_loop tape self (S fuel) [] d [] s = (Raise ValueError, s).
Proof.
  intros Hd. cbn [breed_loop].
  destruct (Z.ltb_spec (len (@nil nat)) d) as [_ | H]; [reflexivity |].
  unfold len in H. simpl in H. lia.
Qed.

(** With a single parent, both indices are always 0: no iteration
    breeds, and the loop is still running when the fuel is spent. *)
Lemma breed_loop_one_parent parents d :
  len parents = 1 -> 0 < d ->
  forall fuel s,
    exists cur,
      breed_loop tape self fuel parents d [] s
        = (OutOfFuel, mkState (nets s) (dicts s) cur).
Proof.
  intros Hp Hd. induction fuel as [| fuel IH]; intros s.
  - exists (cursor s). cbn [breed_loop].
    destruct (Z.ltb_spec (len (@nil nat)) d) as [_ | H];
      [now destruct s | unfold len in H; simpl in H; lia].
  - rewrite breed_loop_step by (unfold len in *; simpl; lia).
    rewrite Hp, !Z.mod_1_r.
    destruct (decide (0 <> 0)) as [Hne | _]; [congruence |].
    destruct (IH (bump (bump s))) as (cur & Hcur). now exists cur.
Qed.

Lemma add_babies_le d babies :
  forall children,
    len children <= d -> len (add_babies d babies children) <= d.
Proof.
  induction babies as [| b babies IH]; intros children H; [exact H |].
  simpl. apply IH.
  destruct (Z.ltb_spec (len children) d); [| exact H].
  unfold len in *. rewrite length_app. simpl. lia.
Qed.

Lemma add_babies_ge d babies :
  forall children, len children <= len (add_babies d babies children).
Proof.
  induction babies as [| b babies IH]; intros children; [simpl; lia |].
  simpl. etrans; [| apply IH].
  destruct (len children <? d); [| lia].
  unfold len. rewrite length_app. simpl. lia.
Qed.

Lemma add_babies_grows d b babies children :
  len children < d ->
  len children < len (add_babies d (b :: babies) children).
Proof.
  intros H. simpl. destruct (Z.ltb_spec (len children) d); [| lia].
  eapply Z.lt_le_trans; [| apply add_babies_ge].
  unfold len. rewrite length_app. simpl. lia.
Qed.

(** A run that leaves the loop leaves it with exactly [d] children. *)
Lemma breed_loop_length parents d fuel :
  forall children s,
    len children <= d ->
    wp (breed_loop tape self fuel parents d children)
       (fun r _ => forall l, r = Ok l -> len l = d) s.
Proof.
  induction fuel as [| fuel IH]; intros children s Hle; cbn [breed_loop];
    destruct (Z.ltb_spec (len children) d);
    try (apply wp_ret; intros l [= <-]; lia).
  - discriminate.
  - apply wp_bind, wp_random_randint; [intros _ | discriminate].
    apply wp_bind, wp_random_randint; [intros _ | discriminate].
    destruct (decide _); [| now apply IH].
    apply wp_bind, wp_getitem; [intros male _ _ | discriminate].
    apply wp_bind, wp_getitem; [intros female _ _ | discriminate].
    apply wp_bind, wp_any.
    intros [babies | e |] s'; try discriminate.
    apply IH. now apply add_babies_le.
Qed.

End BreedLoop.

(** ** [evolve] with fewer than two parents *)

(** C1, as stated, fails: [evolve] has no check of the number of parents.
    On the two-genome example with [retain = 0.5] and [random_select = 0]
    one parent is selected and one child is wanted; 100 iterations of the
    loop later no child was bred and nothing was raised.  With
    [retain = 0] no parent is selected and the run fails inside the loop,
    at the first [random.randint(0, -1)], with [ValueError]. *)
Lemma evolve_few_parents_no_InsufficientParents :
  fst (select count_tape half_optimizer [0%nat; 1%nat] two_store) = Ok [1%nat] /\
  fst (evolve count_tape half_optimizer 100 [0%nat; 1%nat] two_store)
    = OutOfFuel /\
  fst (evolve count_tape half_optimizer 100 [0%nat; 1%nat] two_store)
    <> Raise InsufficientParents /\
  fst (select count_tape no_parent_optimizer [0%nat; 1%nat] two_store) = Ok [] /\
  fst (evolve count_tape no_parent_optimizer 100 [0%nat; 1%nat] two_store)
    = Raise ValueError.
Proof.
  assert (H : fst (evolve count_tape half_optimizer 100 [0%nat; 1%nat] two_store)
              = OutOfFuel) by (vm_compute; reflexivity).
  split; [vm_compute; reflexivity |]. split; [exact H |].
  split; [rewrite H; discriminate |].
  split; vm_compute; reflexivity.
Qed.

(** C1, amended: [evolve] does not check the number of parents before
    the breeding loop and never fails with [InsufficientParents] when
    fewer than 2 parents were selected and children are wanted.  With no
    parent the first iteration of the loop fails with the [ValueError] of
    [random.randint(0, -1)]; with one parent both indices drawn are always
    0, no iteration breeds, and the loop does not end: whatever the fuel,
    the run is still in the loop when the fuel is spent. *)
Theorem evolve_unguarded (tape : nat -> N) (self : Optimizer) (fuel : nat)
    (pop : list ref) (s : state) (parents : list ref) (s1 : state) :
  select tape self pop s = (Ok parents, s1) ->
  len parents < 2 ->
  0 < len pop - len parents ->
  fst (evolve tape self fuel pop s) <> Raise InsufficientParents /\
  (len parents = 0 ->
   evolve tape self (S fuel) pop s = (Raise ValueError, s1)) /\
  (len parents = 1 -> fst (evolve tape self fuel pop s) = OutOfFuel).
Proof.
  intros Hsel Hlt Hd.
  assert (H0 : len parents = 0 ->
               evolve tape self (S fuel) pop s = (Raise ValueError, s1)).
  { intros Hp. destruct parents; [| unfold len in Hp; simpl in Hp; lia].
    unfold evolve. rewrite (bind_Ok _ _ _ _ _ Hsel).
    now rewrite (bind_Raise _ _ _ _ _ (breed_loop_no_parent tape self fuel _ s1 Hd)). }
  assert (H1 : len parents = 1 -> fst (evolve tape self fuel pop s) = OutOfFuel).
  { intros Hp.
    destruct (breed_loop_one_parent tape self parents _ Hp Hd fuel s1)
      as (cur & Hcur).
    unfold evolve. rewrite (bind_Ok _ _ _ _ _ Hsel).
    now rewrite (bind_OutOfFuel _ _ _ _ Hcur). }
  split; [| split; assumption].
  assert (Hcases : len parents = 0 \/ len parents = 1) by (unfold len in *; lia).
  destruct Hcases as [Hp | Hp]; [| rewrite (H1 Hp); discriminate].
  destruct parents; [| unfold len in Hp; simpl in Hp; lia].
  unfold evolve. rewrite (bind_Ok _ _ _ _ _ Hsel).
  destruct fuel as [| fuel'].
  - cbn [breed_loop].
    destruct (Z.ltb_spec (len (@nil nat)) (len pop - len (@nil nat)));
      [unfold bind; simpl; discriminate | lia].
  - rewrite (bind_Raise _ _ _ _ _ (breed_loop_no_parent tape self fuel' _ s1 Hd)).
    discriminate.
Qed.

Lemma evolve_unguarded_witness :
  select count_tape half_optimizer [0%nat; 1%nat] two_store
    = (Ok [1%nat], bump two_store) /\
  len [1%nat] < 2 /\
  0 < len [0%nat; 1%nat] - len [1%nat] /\
  fst (evolve count_tape half_optimizer 7 [0%nat; 1%nat] two_store) = OutOfFuel.
Proof.
  assert (Hsel : select count_tape half_optimizer [0%nat; 1%nat] two_store
                 = (Ok [1%nat], bump two_store)) by reflexivity.
  assert (Hlt : len [1%nat] < 2) by reflexivity.
  assert (Hd : 0 < len [0%nat; 1%nat] - len [1%nat]) by reflexivity.
  refine (conj Hsel (conj Hlt (conj Hd _))).
  exact (proj2 (proj2 (evolve_unguarded count_tape half_optimizer 7
                         [0%nat; 1%nat] two_store [1%nat] (bump two_store)
                         Hsel Hlt Hd)) eq_refl).
Defined.

(** ** [evolve] with at least two parents *)

Lemma pop_ok_parents_in s self pop mother father :
  pop_ok s self pop -> In mother pop -> In father pop ->
  exists mm mf, parents_in s (keys self) mother father mm mf.
Proof.
  intros Hpop Hm Hf.
  destruct (Hpop _ Hm) as (om & mm & Hom & Hmm & Hcm).
  destruct (Hpop _ Hf) as (ofa & mf & Hof & Hmf & Hcf).
  exists mm, mf. split; [now exists om | now exists ofa | auto].
Qed.

Section Termination.

Variable tape : nat -> N.
Variable self : Optimizer.
Variable parents : list ref.
Variable d : Z.
Variable s0 : state.

Hypothesis tape_fair : fair tape.
Hypothesis space : space_ok self.
Hypothesis parents_ok : pop_ok s0 self parents.
Hypothesis two_parents : 2 <= len parents.

(** The loop ends on a fair tape: induction on the number of children
    still wanted, and on the number of pairs of equal indices to skip. *)
Lemma breed_loop_terminates (n : nat) :
  forall children s,
    (Z.to_nat (d - len children) <= n)%nat ->
    extends s0 s ->
    exists fuel l s',
      breed_loop tape self fuel parents d children s = (Ok l, s').
Proof.
  induction n as [| n IHn]; intros children s Hm Hext.
  { exists 0%nat, children, s. apply breed_loop_done. lia. }
  destruct (Z.le_gt_cases d (len children)) as [Hdone | Hlt].
  { exists 0%nat, children, s. now apply breed_loop_done. }
  assert (Hbreed : forall s, extends s0 s ->
            Z.of_N (tape (cursor s)) mod len parents
              <> Z.of_N (tape (S (cursor s))) mod len parents ->
            exists fuel l s',
              breed_loop tape self fuel parents d children s = (Ok l, s')).
  { clear s Hext. intros s Hext Hne.
    set (male := Z.of_N (tape (cursor s)) mod len parents) in *.
    set (female := Z.of_N (tape (S (cursor s))) mod len parents) in *.
    assert (Hmale : 0 <= male < len parents) by (apply Z.mod_pos_bound; lia).
    assert (Hfemale : 0 <= female < len parents) by (apply Z.mod_pos_bound; lia).
    destruct (lookup_lt_is_Some_2 parents (Z.to_nat male)) as [pm Hpm];
      [unfold len in *; lia |].
    destruct (lookup_lt_is_Some_2 parents (Z.to_nat female)) as [pf Hpf];
      [unfold len in *; lia |].
    destruct (pop_ok_parents_in s0 self parents pm pf parents_ok)
      as (mm & mf & Hin);
      [eapply list_elem_of_In, list_elem_of_lookup_2, Hpm
      | eapply list_elem_of_In, list_elem_of_lookup_2, Hpf |].
    destruct (wp_elim (breed tape self pm pf)
                (fun r s' => exists c1 c2, r = Ok [c1; c2] /\
                                           extends (bump (bump s)) s')
                (bump (bump s)))
      as (r & s3 & Hrun & c1 & c2 & -> & Hext3).
    { apply (breed_spec tape self pm pf mm mf); [exact space | |].
      - now apply (parents_in_extends s0).
      - intros child1 child2 cur _ _. eexists _, _. split; [reflexivity |].
        split; simpl; now apply prefix_app_r. }
    destruct (IHn (add_babies d [c1; c2] children) s3) as (fuel & l & s' & Hloop).
    { pose proof (add_babies_grows d c1 [c2] children Hlt). lia. }
    { eapply extends_trans; [exact Hext | exact Hext3]. }
    exists (S fuel), l, s'.
    rewrite breed_loop_step by lia. fold male female.
    destruct (decide (male <> female)); [| contradiction].
    rewrite (bind_Ok _ _ _ _ _ (getitem_run parents male pm _ (proj1 Hmale) Hpm)).
    rewrite (bind_Ok _ _ _ _ _
               (getitem_run parents female pf _ (proj1 Hfemale) Hpf)).
    now rewrite (bind_Ok _ _ _ _ _ Hrun). }
  destruct (tape_fair (len parents) (cursor s) two_parents) as [k Hk].
  revert s Hext Hk. induction k as [| k IHk]; intros s Hext Hk.
  - apply Hbreed; [exact Hext |].
    now replace (cursor s + 2 * 0)%nat with (cursor s) in Hk by lia.
  - destruct (decide (Z.of_N (tape (cursor s)) mod len parents
                      <> Z.of_N (tape (S (cursor s))) mod len parents))
      as [Hne | Heq]; [now apply Hbreed |].
    destruct (IHk (bump (bump s))) as (fuel & l & s' & Hloop);
      [exact Hext | |].
    { cbn [cursor bump].
      replace (S (S (cursor s)) + 2 * k)%nat
        with (cursor s + 2 * S k)%nat by lia.
      exact Hk. }
    exists (S fuel), l, s'.
    rewrite breed_loop_step by lia.
    destruct (decide _); [contradiction | exact Hloop].
Qed.

End Termination.

Lemma count_tape_fair : fair count_tape.
Proof.
  intros m p Hm. exists 0%nat. unfold count_tape.
  rewrite !nat_N_Z, Nat2Z.inj_succ. unfold Z.succ.
  intros E.
  assert (H1 : (Z.of_nat (p + 2 * 0) + 1 - Z.of_nat (p + 2 * 0)) mod m = 0).
  { rewrite Zminus_mod, <- E, Z.sub_diag. now apply Z.mod_0_l; lia. }
  replace (Z.of_nat (p + 2 * 0) + 1 - Z.of_nat (p + 2 * 0)) with 1 in H1 by lia.
  rewrite Z.mod_1_l in H1 by lia. discriminate.
Qed.

Lemma select_parents tape self pop s parents s1 :
  select tape self pop s = (Ok parents, s1) ->
  nets s1 = nets s /\ dicts s1 = dicts s /\
  (forall p, In p parents -> In p pop) /\ len parents <= len pop.
Proof.
  intros Hsel. pose proof (select_frame tape self pop s) as H.
  unfold wp in H. rewrite Hsel in H. simpl in H.
  destruct H as (Hn & Hd & Hp).
  destruct (Hp parents eq_refl) as (g & Hg & Hsub).
  repeat split; auto.
  - intros p Hin. apply list_elem_of_In. rewrite <- Hg.
    eapply elem_of_sublist; [| exact Hsub]. now apply list_elem_of_In.
  - unfold len. apply sublist_length in Hsub.
    apply Permutation_length in Hg. lia.
Qed.

(** C2: take a population of [N >= 2] genomes and a run of [evolve]
    whose selection returns at least 2 parents.  Every such run that
    returns, returns a population of length exactly [N]: the parents
    followed by [N - parents_count] children, the second child of the last
    pair being dropped when it would overshoot.  And such a run does
    return when the genomes cover a parameter space with at least one key
    and no empty choice list and the random source is fair, that is, does
    not draw equal parent indices forever. *)
Theorem evolve_restores_length (tape : nat -> N) (self : Optimizer)
    (s : state) (pop parents : list ref) (s1 : state) :
  2 <= len pop ->
  select tape self pop s = (Ok parents, s1) ->
  2 <= len parents ->
  (forall fuel pop' s',
     evolve tape self fuel pop s = (Ok pop', s') ->
     len pop' = len pop /\
     exists children, pop' = parents ++ children /\
                      len children = len pop - len parents) /\
  (fair tape -> space_ok self -> pop_ok s self pop ->
   exists fuel pop' s',
     evolve tape self fuel pop s = (Ok pop', s') /\ len pop' = len pop).
Proof.
  intros HN Hsel Hp.
  destruct (select_parents _ _ _ _ _ _ Hsel) as (Hn & Hd & Hin & Hle).
  assert (Hpart : forall fuel pop' s',
            evolve tape self fuel pop s = (Ok pop', s') ->
            len pop' = len pop /\
            exists children, pop' = parents ++ children /\
                             len children = len pop - len parents).
  { intros fuel pop' s' Hrun. unfold evolve in Hrun.
    rewrite (bind_Ok _ _ _ _ _ Hsel) in Hrun.
    apply bind_inv_Ok in Hrun. destruct Hrun as (children & s2 & Hloop & Hret).
    injection Hret as <- <-.
    pose proof (breed_loop_length tape self parents (len pop - len parents)
                  fuel [] s1) as Hlen.
    unfold wp in Hlen. rewrite Hloop in Hlen. simpl in Hlen.
    assert (Hc : len children = len pop - len parents)
      by (apply Hlen; [unfold len in *; simpl; lia | reflexivity]).
    split; [| now exists children].
    unfold len in *. rewrite length_app. lia. }
  split; [exact Hpart |].
  intros Hfair Hsp Hpop.
  destruct (breed_loop_terminates tape self parents (len pop - len parents) s1
              Hfair Hsp) with (n := Z.to_nat (len pop - len parents))
              (children := @nil nat) (s := s1)
    as (fuel & l & s' & Hloop).
  - intros p Hp'. destruct (Hpop p (Hin p Hp')) as (o & m & Ho & Hm & Hc).
    exists o, m. rewrite Hn, Hd. auto.
  - exact Hp.
  - unfold len. simpl. lia.
  - apply extends_refl.
  - assert (Hrun : evolve tape self fuel pop s = (Ok (parents ++ l), s')).
    { unfold evolve. rewrite (bind_Ok _ _ _ _ _ Hsel).
      now rewrite (bind_Ok _ _ _ _ _ Hloop). }
    exists fuel, (parents ++ l), s'. split; [exact Hrun |].
    exact (proj1 (Hpart _ _ _ Hrun)).
Qed.

Lemma four_store_ok :
  pop_ok four_store half_optimizer [0%nat; 1%nat; 2%nat; 3%nat].
Proof.
  intros p [<- | [<- | [<- | [<- | []]]]];
    (eexists _, _; split; [reflexivity |]; split; [reflexivity |];
     intros k [<- | [<- | []]]; eexists; vm_compute; reflexivity).
Qed.

Lemma evolve_restores_length_witness :
  2 <= len [0%nat; 1%nat; 2%nat; 3%nat] /\
  select count_tape half_optimizer [0%nat; 1%nat; 2%nat; 3%nat] four_store
    = (Ok [2%nat; 1%nat], bump (bump four_store)) /\
  2 <= len [2%nat; 1%nat] /\
  exists fuel pop' s',
    evolve count_tape half_optimizer fuel [0%nat; 1%nat; 2%nat; 3%nat] four_store
      = (Ok pop', s') /\
    len pop' = len [0%nat; 1%nat; 2%nat; 3%nat].
Proof.
  assert (HN : 2 <= len [0%nat; 1%nat; 2%nat; 3%nat]) by discriminate.
  assert (Hsel : select count_tape half_optimizer [0%nat; 1%nat; 2%nat; 3%nat]
                   four_store
                 = (Ok [2%nat; 1%nat], bump (bump four_store)))
    by reflexivity.
  assert (Hp : 2 <= len [2%nat; 1%nat]) by discriminate.
  refine (conj HN (conj Hsel (conj Hp _))).
  exact (proj2 (evolve_restores_length count_tape half_optimizer four_store
                  [0%nat; 1%nat; 2%nat; 3%nat] [2%nat; 1%nat]
                  (bump (bump four_store)) HN Hsel Hp)
               count_tape_fair half_optimizer_space_ok four_store_ok).
Defined.

(** The run of the witness, evaluated: two parents, two fresh children. *)
Example evolve_four_store :
  fst (evolve count_tape half_optimizer 3 [0%nat; 1%nat; 2%nat; 3%nat] four_store)
    = Ok [2%nat; 1%nat; 4%nat; 5%nat].
Proof. vm_compute. reflexivity. Qed.

(** * Further properties of the optimizer *)

(** ** [create_population] *)

Lemma list_items_allocates (f : M ref) :
  allocates f ->
  forall k s,
    exists s',
      list_items f k s = (Ok (seq (length (nets s)) k), s') /\
      nets s `prefix_of` nets s' /\
      length (nets s') = (length (nets s) + k)%nat.
Proof.
  intros Hf. induction k as [| k IH]; intros s.
  - exists s. split; [reflexivity |]. split; [reflexivity | lia].
  - destruct (Hf s) as (o & s1 & Hrun & Hn1).
    destruct (IH s1) as (s' & Hrest & Hpre & Hlen).
    assert (Hl1 : length (nets s1) = S (length (nets s)))
      by (rewrite Hn1, length_app; simpl; lia).
    exists s'. cbn [list_items].
    rewrite (bind_Ok _ _ _ _ _ Hrun), (bind_Ok _ _ _ _ _ Hrest), Hl1.
    split; [reflexivity |]. split; [| lia].
    etrans; [| exact Hpre]. rewrite Hn1. now apply prefix_app_r.
Qed.

(** X1: when every call of the genome factory creates one genome,
    running the generator of [create_population(count)] to its end yields
    exactly [max(count, 0)] genomes, in order of creation: all of them new
    to the store, no two of them the same object, and the genomes that
    existed before are still there.  For [count <= 0] the factory is never
    called and nothing changes. *)
Theorem create_population_yields (f : M ref) (count : Z) (s : state) :
  allocates f ->
  exists l s',
    list_of f (create_population count) s = (Ok l, s') /\
    len l = Z.max count 0 /\
    NoDup l /\
    (forall n, In n l -> nets s !! n = None /\ is_Some (nets s' !! n)) /\
    nets s `prefix_of` nets s' /\
    (count <= 0 -> l = [] /\ s' = s).
Proof.
  intros Hf. unfold list_of, create_population. cbn [remaining].
  destruct (list_items_allocates f Hf (Z.to_nat count) s)
    as (s' & Hrun & Hpre & Hlen).
  exists (seq (length (nets s)) (Z.to_nat count)), s'.
  split; [exact Hrun |]. split; [unfold len; rewrite length_seq; lia |].
  split; [apply NoDup_ListNoDup, seq_NoDup |]. split.
  - intros n Hn. apply in_seq in Hn. split.
    + apply lookup_ge_None_2. lia.
    + apply lookup_lt_is_Some_2. lia.
  - split; [exact Hpre |].
    intros Hc. replace (Z.to_nat count) with 0%nat in Hrun |- * by lia.
    split; [reflexivity |]. simpl in Hrun. now injection Hrun.
Qed.

Section RandomNetworkFacts.

Variable tape : nat -> N.

Lemma fill_random_spec params d :
  Forall (fun p : string * list value => snd p <> []) params ->
  forall s m (Q : outcome unit -> state -> Prop),
    dicts s !! d = Some m ->
    (forall m' cur,
       Q (Ok tt) (mkState (nets s) (<[d := m']> (dicts s)) cur)) ->
    wp (fill_random tape params d) Q s.
Proof.
  induction 1 as [| [k choices] params Hne _ IH]; intros s m Q Hd HQ.
  - apply wp_ret.
    replace s with (mkState (nets s) (<[d := m]> (dicts s)) (cursor s));
      [apply HQ |].
    rewrite list_insert_id by exact Hd. now destruct s.
  - cbn [fill_random].
    apply wp_bind, wp_random_choice; [intros v _ | intros E; now destruct Hne].
    apply wp_bind, wp_dict_setitem; simpl; [| congruence].
    intros m1 Hm1.
    apply (IH _ (<[k := v]> m1)); simpl.
    + apply list_lookup_insert_eq. eapply lookup_lt_Some, Hd.
    + intros m' cur. rewrite list_insert_insert_eq. apply HQ.
Qed.

Lemma random_network_allocates self :
  Forall (fun p : string * list value => snd p <> []) (nn_param_choices self) ->
  allocates (random_network tape self).
Proof.
  intros Hne s.
  destruct (wp_elim (random_network tape self)
              (fun r s' => r = Ok (length (nets s)) /\
                           nets s' = nets s ++ [mkNetwork (length (dicts s)) None]) s)
    as (r & s' & Hrun & -> & Hn).
  - unfold random_network. apply wp_bind, wp_new_dict, wp_bind.
    apply (fill_random_spec _ _ Hne _ ∅); simpl.
    + now apply list_lookup_middle.
    + intros m' cur. now apply wp_create_set.
  - now exists (mkNetwork (length (dicts s)) None), s'.
Qed.

End RandomNetworkFacts.

Lemma create_population_yields_witness :
  allocates (random_network count_tape half_optimizer) /\
  exists l s',
    list_of (random_network count_tape half_optimizer) (create_population 3)
      two_store = (Ok l, s') /\
    len l = 3.
Proof.
  assert (H : allocates (random_network count_tape half_optimizer))
    by (apply random_network_allocates; repeat constructor; discriminate).
  split; [exact H |].
  destruct (create_population_yields _ 3 two_store H) as (l & s' & Hrun & Hlen & _).
  exists l, s'. split; [exact Hrun | exact Hlen].
Defined.

(** The three genomes of the witness. *)
Example create_population_three :
  fst (list_of (random_network count_tape half_optimizer) (create_population 3)
         two_store) = Ok [2%nat; 3%nat; 4%nat].
Proof. vm_compute. reflexivity. Qed.

(** ** Selection for every rate *)

Section SelectionFacts.

Variable tape : nat -> N.
Variable self : Optimizer.

Lemma random_random_range s :
  exists r, random_random tape s = (Ok r, bump s) /\ (0 <= r)%Q /\ (r < 1)%Q.
Proof.
  destruct (wp_elim (random_random tape)
              (fun o s' => exists r, o = Ok r /\ s' = bump s /\
                                     (0 <= r)%Q /\ (r < 1)%Q) s)
    as (o & s' & Hrun & r & -> & -> & Hr).
  - apply wp_random_random. intros r H0 H1. now exists r.
  - now exists r.
Qed.

Lemma select_evaluated s pop costs :
  evaluated s pop costs ->
  select tape self pop s
    = select_random tape self
        (slice_from (ranked costs pop) (retain_length self (ranked costs pop)))
        (slice_to (ranked costs pop) (retain_length self (ranked costs pop))) s.
Proof.
  intros Hev. unfold select.
  now rewrite (bind_Ok _ _ _ _ _ (grade_all_evaluated _ _ _ Hev)).
Qed.



(** With [random_select <= 0] no draw is below the rate: nothing of the
    rest is kept. *)
Lemma select_random_none rest :
  (random_select self <= 0)%Q ->
  forall parents s,
    select_random tape self rest parents s
      = (Ok parents, mkState (nets s) (dicts s) (cursor s + length rest)%nat).
Proof.
  intros Hrs. induction rest as [| i rest IH]; intros parents s.
  - simpl. unfold ret. rewrite Nat.add_0_r. now destruct s.
  - destruct (random_random_range s) as (r & Hr & Hr0 & _).
    cbn [select_random]. rewrite (bind_Ok _ _ _ _ _ Hr).
    assert (E : Qltb r (random_select self) = false)
      by (apply Qltb_ge; now apply Qle_trans with 0%Q).
    rewrite E, IH.
    replace (cursor s + length (i :: rest))%nat
      with (cursor (bump s) + length rest)%nat by (simpl; lia).
    reflexivity.
Qed.


End SelectionFacts.






(** X4: with [random_select <= 0] no genome outside the elite is ever
    kept, whatever the random source draws: the parents of an evaluated
    population are exactly the elite slice of the ranking, for the bound
    taken from the product and for every bound that the computation in
    double precision returns; a bound [k] that is not negative gives
    [min k N] parents. *)
Theorem select_only_elite (tape : nat -> N) (self : Optimizer) (s : state)
    (pop : list ref) (costs : list Q) :
  evaluated s pop costs ->
  (random_select self <= 0)%Q ->
  let graded := ranked costs pop in
  let k := retain_length self graded in
  select tape self pop s
    = (Ok (slice_to graded k),
       mkState (nets s) (dicts s)
               (cursor s + length (slice_from graded k))%nat) /\
  (forall k', retain_length_double self graded s = (Ok k', s) ->
     select_double tape self pop s
       = (Ok (slice_to graded k'),
          mkState (nets s) (dicts s)
                  (cursor s + length (slice_from graded k'))%nat)) /\
  (forall k', 0 <= k' -> len (slice_to graded k') = Z.min k' (len pop)).
Proof.
  intros Hev Hrs graded k. split; [| split].
  - rewrite (select_evaluated tape self s pop costs Hev).
    apply select_random_none. exact Hrs.
  - intros k' Hk'. unfold select_double.
    rewrite (bind_Ok _ _ _ _ _ (grade_all_evaluated _ _ _ Hev)).
    fold (ranked costs pop). fold graded.
    rewrite (bind_Ok _ _ _ _ _ Hk').
    apply select_random_none. exact Hrs.
  - intros k' Hk'.
    assert (Hlen : length graded = length pop) by exact (ranked_length _ _ _ Hev).
    unfold slice_to, len in *.
    destruct (Z.ltb_spec k' 0); [lia |].
    rewrite length_firstn. lia.
Qed.

Lemma select_only_elite_witness :
  evaluated two_store [0%nat; 1%nat] [9 # 10; 2 # 10]%Q /\
  (random_select half_optimizer <= 0)%Q /\
  select count_tape half_optimizer [0%nat; 1%nat] two_store
    = (Ok [1%nat], bump two_store).
Proof.
  assert (H : (random_select half_optimizer <= 0)%Q) by discriminate.
  refine (conj two_store_evaluated (conj H _)).
  exact (proj1 (select_only_elite count_tape half_optimizer two_store
                  [0%nat; 1%nat] [9 # 10; 2 # 10]%Q two_store_evaluated H)).
Defined.

(** ** Runs of [evolve] that return *)





(** The run of the witness, evaluated: two elite parents, and the three
    other genomes selected at random, the draws of [count_tape] being far
    below 0.1. *)
Example evolve_five_store_default :
  fst (evolve count_tape (__init__ example_space None None None) 5
         [0%nat; 1%nat; 2%nat; 3%nat; 4%nat] five_store)
    = Ok [2%nat; 1%nat; 3%nat; 4%nat; 0%nat].
Proof. vm_compute. reflexivity. Qed.

Lemma cost_extends s s' n c :
  extends s s' -> cost s n = Some c -> cost s' n = Some c.
Proof.
  intros [Hn _]. unfold cost.
  destruct (nets s !! n) as [o |] eqn:Ho; [| discriminate].
  now rewrite (prefix_lookup_Some _ _ _ _ Ho Hn).
Qed.

Lemma evaluated_cost s pop costs p :
  evaluated s pop costs -> In p pop -> exists c, cost s p = Some c.
Proof.
  intros Hev Hin. apply list_elem_of_In, list_elem_of_lookup in Hin.
  destruct Hin as (i & Hi).
  destruct (Forall2_lookup_l _ _ _ _ _ Hev Hi) as (c & _ & Hc). eauto.
Qed.

Lemma evolve_extends tape self fuel pop s o s' :
  evolve tape self fuel pop s = (o, s') -> extends s s'.
Proof.
  intros Hrun. pose proof (evolve_wp_frame tape self fuel pop s) as H.
  unfold wp in H. rewrite Hrun in H. apply H.
Qed.

(** X6: elitism keeps the best genome.  When [N * retain >= 1], every run
    of [evolve] on an evaluated population that returns, returns a
    population whose first genome is a genome of the input of minimal
    cost, with the cost and the mapping it had: the best cost of a
    generation is never lost in the next one. *)
Theorem evolve_keeps_best (tape : nat -> N) (self : Optimizer) (fuel : nat)
    (s : state) (pop : list ref) (costs : list Q)
    (pop' : list ref) (s' : state) :
  evaluated s pop costs ->
  (1 <= inject_Z (len pop) * retain self)%Q ->
  evolve tape self fuel pop s = (Ok pop', s') ->
  exists best rest,
    pop' = best :: rest /\
    In best pop /\
    (forall p, In p pop -> cost_le s best p) /\
    cost s' best = cost s best /\
    (forall m, mapping_of s best = Some m -> mapping_of s' best = Some m).
Proof.
  intros Hev Hret Hrun.
  pose proof (evolve_extends _ _ _ _ _ _ _ Hrun) as Hext.
  set (g := ranked costs pop).
  assert (Hlen : length g = length pop) by exact (ranked_length _ _ _ Hev).
  assert (Hperm : Permutation g pop) by exact (ranked_perm _ _ _ Hev).
  assert (Hsorted : StronglySorted (cost_le s) g)
    by exact (ranked_sorted _ _ _ Hev).
  assert (Hk : 1 <= retain_length self g).
  { unfold retain_length, len. rewrite Hlen. fold (len pop).
    rewrite py_int_floor by (apply Qle_trans with 1%Q; [discriminate | exact Hret]).
    rewrite <- (Qfloor_Z 1). now apply Qfloor_resp_le. }
  destruct g as [| best g'] eqn:Eg.
  { exfalso. destruct pop; [| discriminate].
    revert Hret. unfold len. simpl. unfold Qle. simpl. lia. }
  destruct (select_random_run tape self
              (slice_from (best :: g') (retain_length self (best :: g')))
              (slice_to (best :: g') (retain_length self (best :: g'))) s)
    as (extra & Hsel & _).
  pose proof (select_evaluated tape self s pop costs Hev) as Hs.
  fold g in Hs. rewrite Eg in Hs. rewrite <- Hs in Hsel. clear Hs.
  unfold evolve in Hrun. rewrite (bind_Ok _ _ _ _ _ Hsel) in Hrun.
  apply bind_inv_Ok in Hrun. destruct Hrun as (children & s2 & _ & Hret').
  injection Hret' as <- <-.
  assert (Hhead : exists tl, slice_to (best :: g') (retain_length self (best :: g'))
                             = best :: tl).
  { unfold slice_to. destruct (Z.ltb_spec (retain_length self (best :: g')) 0);
      [lia |].
    destruct (Z.to_nat (retain_length self (best :: g'))) as [| k] eqn:Ek; [lia |].
    simpl. eauto. }
  destruct Hhead as (tl & Htl). rewrite Htl.
  exists best, ((tl ++ extra) ++ children). split; [reflexivity |].
  assert (Hin : In best pop).
  { apply list_elem_of_In. rewrite <- Hperm. now left. }
  destruct (evaluated_cost _ _ _ _ Hev Hin) as (c & Hc).
  split; [exact Hin |]. split; [| split].
  - intros p Hp. apply list_elem_of_In in Hp. rewrite <- Hperm in Hp.
    inversion Hsorted as [| ? ? _ Hall]; subst.
    apply elem_of_cons in Hp. destruct Hp as [-> | Hp].
    + exists c, c. repeat split; auto. apply Qle_refl.
    + rewrite Forall_forall in Hall. now apply Hall.
  - now rewrite Hc, (cost_extends _ _ _ _ Hext Hc).
  - intros m. now apply mapping_of_extends.
Qed.

Lemma evolve_keeps_best_witness :
  evaluated four_store [0%nat; 1%nat; 2%nat; 3%nat]
    [9 # 10; 2 # 10; 1 # 10; 3 # 10]%Q /\
  (1 <= inject_Z (len [0%nat; 1%nat; 2%nat; 3%nat]) * retain half_optimizer)%Q /\
  exists pop' s',
    evolve count_tape half_optimizer 3 [0%nat; 1%nat; 2%nat; 3%nat] four_store
      = (Ok pop', s') /\
    exists best rest, pop' = best :: rest /\ In best [0%nat; 1%nat; 2%nat; 3%nat].
Proof.
  assert (Hev : evaluated four_store [0%nat; 1%nat; 2%nat; 3%nat]
                  [9 # 10; 2 # 10; 1 # 10; 3 # 10]%Q)
    by (unfold evaluated; repeat constructor).
  assert (Hret : (1 <= inject_Z (len [0%nat; 1%nat; 2%nat; 3%nat])
                       * retain half_optimizer)%Q) by discriminate.
  refine (conj Hev (conj Hret _)).
  eexists _, _. split; [vm_compute; reflexivity |].
  destruct (evolve_keeps_best count_tape half_optimizer 3 four_store
              [0%nat; 1%nat; 2%nat; 3%nat] [9 # 10; 2 # 10; 1 # 10; 3 # 10]%Q
              _ _ Hev Hret ltac:(vm_compute; reflexivity))
    as (best & rest & Heq & Hin & _).
  exists best, rest. split; [exact Heq | exact Hin].
Defined.

(** ** Empty and unevaluated populations *)

(** X7: [evolve] of the empty population returns the empty population,
    for every configuration and every amount of fuel, without drawing a
    number or touching the store, whereas [grade] of the empty population
    fails. *)
Theorem evolve_empty (tape : nat -> N) (self : Optimizer) (fuel : nat)
    (s : state) :
  evolve tape self fuel [] s = (Ok [], s) /\
  fst (grade [] s) = Raise TypeError.
Proof.
  split; [| reflexivity].
  assert (Hsel : select tape self [] s = (Ok [], s)).
  { unfold select. cbn [grade_all]. unfold bind, ret. cbn [sorted map].
    unfold slice_from, slice_to.
    destruct (_ <? 0); now rewrite firstn_nil, skipn_nil. }
  unfold evolve. rewrite (bind_Ok _ _ _ _ _ Hsel).
  rewrite (bind_Ok _ _ _ _ _ (breed_loop_done tape self fuel [] _ [] s
             ltac:(reflexivity))).
  reflexivity.
Qed.

Lemma fitness_state n s : snd (fitness n s) = s.
Proof.
  unfold fitness, bind, get_net.
  destruct (nets s !! n) as [o |]; [| reflexivity].
  now destruct (loss o).
Qed.

Lemma grade_all_raise s pre n post costs e :
  evaluated s pre costs ->
  fst (fitness n s) = Raise e ->
  grade_all (pre ++ n :: post) s = (Raise e, s).
Proof.
  intros Hev Hn.
  assert (Hf : fitness n s = (Raise e, s))
    by (rewrite (surjective_pairing (fitness n s)), Hn, fitness_state; reflexivity).
  induction Hev as [| p c pre costs Hp _ IH]; simpl.
  - now rewrite (bind_Raise _ _ _ _ _ Hf).
  - rewrite (bind_Ok _ _ _ _ _ (fitness_cost _ _ _ Hp)).
    now rewrite (bind_Raise _ _ _ _ _ IH).
Qed.

Lemma reduce_add_raise s pre n post costs e acc :
  evaluated s pre costs ->
  fst (fitness n s) = Raise e ->
  reduce_add acc (pre ++ n :: post) s = (Raise e, s).
Proof.
  intros Hev Hn.
  assert (Hf : fitness n s = (Raise e, s))
    by (rewrite (surjective_pairing (fitness n s)), Hn, fitness_state; reflexivity).
  revert acc. induction Hev as [| p c pre costs Hp _ IH]; intros acc; simpl.
  - now rewrite (bind_Raise _ _ _ _ _ Hf).
  - rewrite (bind_Ok _ _ _ _ _ (fitness_cost _ _ _ Hp)). apply IH.
Qed.

(** X8: [grade] and [evolve] read the cost of every genome before
    anything else.  When [fitness] fails on a genome of the population
    whose predecessors were all evaluated, both fail with the same
    exception, with no number drawn and the store as it was. *)
Theorem fitness_failure_propagates (tape : nat -> N) (self : Optimizer)
    (fuel : nat) (s : state) (pre post : list ref) (n : ref)
    (costs : list Q) (e : exn) :
  evaluated s pre costs ->
  fst (fitness n s) = Raise e ->
  grade (pre ++ n :: post) s = (Raise e, s) /\
  evolve tape self fuel (pre ++ n :: post) s = (Raise e, s).
Proof.
  intros Hev Hn. split.
  - assert (Hf : fitness n s = (Raise e, s))
      by (rewrite (surjective_pairing (fitness n s)), Hn, fitness_state;
          reflexivity).
    unfold grade. destruct Hev as [| p c pre costs Hp Hrest]; cbn [app].
    + now rewrite (bind_Raise _ _ _ _ _ (bind_Raise _ _ _ _ _ Hf)).
    + assert (Hsum : (x <- fitness p ;; reduce_add (Finite x) (pre ++ n :: post)) s
                     = (Raise e, s)).
      { rewrite (bind_Ok _ _ _ _ _ (fitness_cost _ _ _ Hp)).
        exact (reduce_add_raise s pre n post costs e (Finite c) Hrest Hn). }
      now rewrite (bind_Raise _ _ _ _ _ Hsum).
  - assert (Hsel : select tape self (pre ++ n :: post) s = (Raise e, s)).
    { unfold select.
      now rewrite (bind_Raise _ _ _ _ _
                     (grade_all_raise s pre n post costs e Hev Hn)). }
    unfold evolve. now rewrite (bind_Raise _ _ _ _ _ Hsel).
Qed.

Lemma fitness_failure_propagates_witness :
  evaluated half_evaluated_store [0%nat] [9 # 10]%Q /\
  fst (fitness 1%nat half_evaluated_store) = Raise AttributeError /\
  evolve count_tape half_optimizer 5 [0%nat; 1%nat] half_evaluated_store
    = (Raise AttributeError, half_evaluated_store).
Proof.
  assert (Hev : evaluated half_evaluated_store [0%nat] [9 # 10]%Q)
    by (unfold evaluated; repeat constructor).
  refine (conj Hev (conj eq_refl _)).
  exact (proj2 (fitness_failure_propagates count_tape half_optimizer 5
                  half_evaluated_store [0%nat] [] 1%nat [9 # 10]%Q
                  AttributeError Hev eq_refl)).
Defined.

(** ** Edge cases of [breed] and [mutate] *)

Section BreedEdges.

Variable tape : nat -> N.
Variable self : Optimizer.

(** The crossover loop stops with [KeyError] at the first key that one
    of the parents lacks; until then it only wrote to the child. *)
Lemma pick_params_missing params c mother father om ofa mm mf :
  (exists k, In k params /\ (mm !! k = None \/ mf !! k = None)) ->
  forall s mc,
    nets s !! mother = Some om -> dicts s !! network om = Some mm ->
    nets s !! father = Some ofa -> dicts s !! network ofa = Some mf ->
    c <> network om -> c <> network ofa ->
    dicts s !! c = Some mc ->
    wp (pick_params tape params c mother father)
       (fun r s' => r = Raise KeyError /\
                    exists mc' cur,
                      s' = mkState (nets s) (<[c := mc']> (dicts s)) cur) s.
Proof.
  induction params as [| param rest IH];
    intros (k & Hk & Hmiss) s mc Hom Hmm Hof Hmf Hcm Hcf Hc; [destruct Hk |].
  assert (Hhere : forall cur,
            exists mc' cur',
              mkState (nets s) (dicts s) cur
              = mkState (nets s) (<[c := mc']> (dicts s)) cur').
  { intros cur. exists mc, cur. now rewrite list_insert_id. }
  cbn [pick_params].
  apply wp_bind, wp_get_net; [| congruence].
  intros o1 Ho1. assert (o1 = om) as -> by congruence.
  apply wp_bind, wp_dict_getitem; [| congruence |].
  2: { intros _ _ _. split; [reflexivity |].
       destruct s as [ns ds cu]. exact (Hhere cu). }
  intros m1 a Hm1 Ha. assert (m1 = mm) as -> by congruence.
  apply wp_bind, wp_get_net; [| congruence].
  intros o2 Ho2. assert (o2 = ofa) as -> by congruence.
  apply wp_bind, wp_dict_getitem; [| congruence |].
  2: { intros _ _ _. split; [reflexivity |].
       destruct s as [ns ds cu]. exact (Hhere cu). }
  intros m2 b Hm2 Hb. assert (m2 = mf) as -> by congruence.
  apply wp_bind, wp_random_choice; [| discriminate]. intros v _.
  apply wp_bind, wp_dict_setitem; simpl; [| congruence].
  intros m3 Hm3. assert (m3 = mc) as -> by congruence.
  assert (Hlt : (c < length (dicts s))%nat) by (eapply lookup_lt_Some, Hc).
  eapply wp_mono.
  - apply (IH ltac:(destruct Hk as [<- | Hk];
                    [destruct Hmiss; congruence | now exists k])
              _ (<[param := v]> mc)); simpl; auto.
    + now rewrite list_lookup_insert_ne.
    + now rewrite list_lookup_insert_ne.
    + now apply list_lookup_insert_eq.
  - simpl. intros r s' (-> & mc' & cur & ->). split; [reflexivity |].
    exists mc', cur. now rewrite list_insert_insert_eq.
Qed.

End BreedEdges.

(** X9: [breed] fails with [KeyError] when a parent lacks one of the
    parameters of the space: no genome object is created, and every
    genome and mapping of the store is as it was (the mapping started for
    the first child is left behind, referenced by nothing). *)
Theorem breed_missing_key (tape : nat -> N) (self : Optimizer) (s : state)
    (mother father : ref) (om ofa : Network) (mm mf : gmap string value) :
  nets s !! mother = Some om -> dicts s !! network om = Some mm ->
  nets s !! father = Some ofa -> dicts s !! network ofa = Some mf ->
  (exists k, In k (keys self) /\ (mm !! k = None \/ mf !! k = None)) ->
  exists s',
    breed tape self mother father s = (Raise KeyError, s') /\
    nets s' = nets s /\
    dicts s `prefix_of` dicts s'.
Proof.
  intros Hom Hmm Hof Hmf Hmiss.
  destruct (wp_elim (breed tape self mother father)
              (fun r s' => r = Raise KeyError /\ nets s' = nets s /\
                           dicts s `prefix_of` dicts s') s)
    as (r & s' & Hrun & -> & Hn & Hd); [| now exists s'].
  unfold breed. cbn [breed_range]. apply wp_bind.
  unfold breed_child. apply wp_bind, wp_new_dict, wp_bind.
  eapply wp_mono.
  - apply (pick_params_missing tape (keys self) _ mother father om ofa mm mf
             Hmiss _ ∅); simpl; auto.
    + now apply lookup_app_l_Some.
    + now apply lookup_app_l_Some.
    + apply lookup_lt_Some in Hmm. lia.
    + apply lookup_lt_Some in Hmf. lia.
    + now apply list_lookup_middle.
  - simpl. intros r s1 (-> & mc' & cur & ->). simpl.
    rewrite insert_snoc. repeat split. now apply prefix_app_r.
Qed.

Lemma breed_missing_key_witness :
  (exists k, In k (keys half_optimizer) /\
             (genome_A !! k = None \/ genome_layers_only !! k = None)) /\
  exists s',
    breed count_tape half_optimizer 0%nat 1%nat short_store
      = (Raise KeyError, s') /\
    nets s' = nets short_store.
Proof.
  assert (H : exists k, In k (keys half_optimizer) /\
                (genome_A !! k = None \/ genome_layers_only !! k = None)).
  { exists "neurons"%string. split; [right; left; reflexivity |].
    right. vm_compute. reflexivity. }
  split; [exact H |].
  destruct (breed_missing_key count_tape half_optimizer short_store 0%nat 1%nat
              (mkNetwork 0%nat (Some (9 # 10))) (mkNetwork 1%nat (Some (2 # 10)))
              genome_A genome_layers_only eq_refl eq_refl eq_refl eq_refl H)
    as (s' & Hrun & Hn & _).
  now exists s'.
Defined.

(** X10: with an empty parameter space, [mutate] fails with [IndexError]
    before it draws or writes anything, for lack of a key to choose.
    [breed] then reads nothing of its parents: when [mutate_chance <= 0]
    it returns two new genomes with empty mappings, and when
    [mutate_chance >= 1] it fails with the [IndexError] of [mutate]. *)
Theorem empty_space_edges (tape : nat -> N) (self : Optimizer) (s : state)
    (n mother father : ref) :
  nn_param_choices self = [] ->
  mutate tape self n s = (Raise IndexError, s) /\
  ((mutate_chance self <= 0)%Q ->
   exists s',
     breed tape self mother father s
       = (Ok [length (nets s); S (length (nets s))], s') /\
     mapping_of s' (length (nets s)) = Some ∅ /\
     mapping_of s' (S (length (nets s))) = Some ∅) /\
  ((1 <= mutate_chance self)%Q ->
   exists s', breed tape self mother father s = (Raise IndexError, s')).
Proof.
  intros Hempty.
  assert (Hmut : forall n s, mutate tape self n s = (Raise IndexError, s))
    by (intros n0 s0; unfold mutate; rewrite Hempty; reflexivity).
  split; [apply Hmut |].
  assert (Hchild : forall s (Q : outcome ref -> state -> Prop),
            (forall r, (0 <= r)%Q -> (r < 1)%Q ->
               let s1 := mkState (nets s ++ [mkNetwork (length (dicts s)) None])
                                 (dicts s ++ [∅]) (S (cursor s)) in
               if Qltb r (mutate_chance self) then Q (Raise IndexError) s1
               else Q (Ok (length (nets s))) s1) ->
            wp (breed_child tape self mother father) Q s).
  { intros s0 Q HQ. unfold breed_child. rewrite Hempty. cbn [map pick_params].
    apply wp_bind, wp_new_dict, wp_bind, wp_ret, wp_bind, wp_create_set.
    apply wp_bind, wp_random_random. intros r H0 H1.
    specialize (HQ r H0 H1). simpl in HQ. unfold bump. simpl.
    destruct (Qltb r (mutate_chance self)).
    - unfold wp. rewrite Hmut. exact HQ.
    - apply wp_ret. exact HQ. }
  split.
  - intros Hle.
    assert (Hno : forall r, (0 <= r)%Q -> Qltb r (mutate_chance self) = false)
      by (intros r Hr; apply Qltb_ge; now apply Qle_trans with 0%Q).
    destruct (wp_elim (breed tape self mother father)
                (fun r s' => r = Ok [length (nets s); S (length (nets s))] /\
                   mapping_of s' (length (nets s)) = Some ∅ /\
                   mapping_of s' (S (length (nets s))) = Some ∅) s)
      as (r & s' & Hrun & -> & Hm); [| now exists s'].
    unfold breed. cbn [breed_range].
    apply wp_bind, Hchild. intros r1 H10 _. rewrite (Hno r1 H10). simpl.
    apply wp_bind, Hchild. intros r2 H20 _. rewrite (Hno r2 H20). simpl.
    apply wp_ret. rewrite !length_app. simpl. rewrite !Nat.add_1_r.
    split; [reflexivity |]. unfold mapping_of. simpl.
    rewrite <- !app_assoc. simpl.
    rewrite lookup_snoc2_1, lookup_snoc2_2. simpl.
    now rewrite lookup_snoc2_1, lookup_snoc2_2.
  - intros Hge.
    destruct (wp_elim (breed tape self mother father)
                (fun r _ => r = Raise IndexError) s)
      as (r & s' & Hrun & ->); [| now exists s'].
    unfold breed. cbn [breed_range].
    apply wp_bind, Hchild. intros r1 _ H11.
    assert (E : Qltb r1 (mutate_chance self) = true)
      by (apply Qltb_lt; now apply Qlt_le_trans with 1%Q).
    now rewrite E.
Qed.

Lemma empty_space_edges_witness :
  nn_param_choices empty_space_optimizer = [] /\
  mutate count_tape empty_space_optimizer 0%nat two_store
    = (Raise IndexError, two_store).
Proof.
  split; [reflexivity |].
  exact (proj1 (empty_space_edges count_tape empty_space_optimizer two_store
                  0%nat 0%nat 1%nat eq_refl)).
Defined.

(** ** Genomes that satisfy the parameter space *)

Lemma child_of_exact self mm mf child :
  valid_genome self mm -> valid_genome self mf ->
  child_of self mm mf child -> exact_genome self child.
Proof.
  intros Hmm Hmf (mc & Hcr & Hchild).
  assert (Hmc : exact_genome self mc).
  { split.
    - intros k Hk. destruct (proj1 (Hcr k) Hk) as (v & Hv & [Hm | Hm]).
      + exists v. split; [exact Hv |].
        destruct (Hmm k Hk) as (v' & Hv' & Hadm). congruence.
      + exists v. split; [exact Hv |].
        destruct (Hmf k Hk) as (v' & Hv' & Hadm). congruence.
    - intros k Hk. rewrite (proj2 (Hcr k) Hk). apply lookup_empty. }
  destruct Hchild as [-> | (_ & k0 & v0 & Hk0 & Hv0 & ->)]; [exact Hmc |].
  destruct Hmc as [Hval Hout]. split.
  - intros k Hk. destruct (decide (k0 = k)) as [<- | Hne].
    + exists v0. now rewrite lookup_insert_eq.
    + rewrite lookup_insert_ne by exact Hne. now apply Hval.
  - intros k Hk. rewrite lookup_insert_ne; [now apply Hout |].
    intros <-. contradiction.
Qed.

Lemma mapping_of_Some s n m :
  mapping_of s n = Some m <->
  exists o, nets s !! n = Some o /\ dicts s !! network o = Some m.
Proof.
  unfold mapping_of. split.
  - destruct (nets s !! n) as [o |]; [| discriminate]. eauto.
  - intros (o & -> & Hm). exact Hm.
Qed.

(** X11: the children that [breed] makes of two valid parents satisfy
    the parameter space exactly: each child's mapping has every key of
    the space, with a value admissible for that key, and no other key,
    even when the parents carry keys outside the space.  The two children
    are distinct objects that share their mapping with nobody. *)
Theorem breed_children_exact (tape : nat -> N) (self : Optimizer) (s : state)
    (mother father : ref) (mm mf : gmap string value) :
  space_ok self ->
  parents_in s (keys self) mother father mm mf ->
  valid_genome self mm -> valid_genome self mf ->
  exists c1 c2 o1 o2 s',
    breed tape self mother father s = (Ok [c1; c2], s') /\
    c1 <> c2 /\
    nets s' !! c1 = Some o1 /\ nets s' !! c2 = Some o2 /\
    network o1 <> network o2 /\
    dicts s !! network o1 = None /\ dicts s !! network o2 = None /\
    (exists child1, dicts s' !! network o1 = Some child1 /\
                    exact_genome self child1) /\
    (exists child2, dicts s' !! network o2 = Some child2 /\
                    exact_genome self child2).
Proof.
  intros Hsp Hin Hmm Hmf.
  destruct (wp_elim (breed tape self mother father)
    (fun r s' => exists child1 child2 cur,
       r = Ok [length (nets s); S (length (nets s))] /\
       child_of self mm mf child1 /\ child_of self mm mf child2 /\
       s' = mkState (nets s ++ [mkNetwork (length (dicts s)) None;
                                mkNetwork (S (length (dicts s))) None])
                    (dicts s ++ [child1; child2]) cur) s)
    as (r & s' & Hrun & ch1 & ch2 & cur & -> & H1 & H2 & ->).
  { apply (breed_spec tape self mother father mm mf); auto.
    intros child1 child2 cur H1 H2. now exists child1, child2, cur. }
  exists (length (nets s)), (S (length (nets s))),
         (mkNetwork (length (dicts s)) None),
         (mkNetwork (S (length (dicts s))) None).
  eexists. split; [exact Hrun |]. simpl.
  split; [lia |].
  split; [apply lookup_snoc2_1 |]. split; [apply lookup_snoc2_2 |].
  split; [lia |].
  split; [apply lookup_ge_None_2; lia |].
  split; [apply lookup_ge_None_2; lia |]. split.
  - exists ch1. split; [apply lookup_snoc2_1 |]. now apply (child_of_exact self mm mf).
  - exists ch2. split; [apply lookup_snoc2_2 |]. now apply (child_of_exact self mm mf).
Qed.

Lemma genome_A_valid : valid_genome half_optimizer genome_A.
Proof.
  intros k [<- | [<- | []]].
  - exists (VInt 1). split; [reflexivity |].
    exists [VInt 1; VInt 2; VInt 3]. split; [reflexivity | now left].
  - exists (VInt 16). split; [reflexivity |].
    exists [VInt 16; VInt 32; VInt 64]. split; [reflexivity | now left].
Qed.

Lemma genome_B_valid : valid_genome half_optimizer genome_B.
Proof.
  intros k [<- | [<- | []]].
  - exists (VInt 3). split; [reflexivity |].
    exists [VInt 1; VInt 2; VInt 3]. split; [reflexivity | right; right; now left].
  - exists (VInt 64). split; [reflexivity |].
    exists [VInt 16; VInt 32; VInt 64].
    split; [reflexivity | right; right; now left].
Qed.

Lemma breed_children_exact_witness :
  space_ok half_optimizer /\
  parents_in two_store (keys half_optimizer) 0%nat 1%nat genome_A genome_B /\
  valid_genome half_optimizer genome_A /\ valid_genome half_optimizer genome_B /\
  exists c1 c2 s',
    breed count_tape half_optimizer 0%nat 1%nat two_store = (Ok [c1; c2], s') /\
    c1 <> c2.
Proof.
  refine (conj half_optimizer_space_ok
            (conj two_store_parents (conj genome_A_valid (conj genome_B_valid _)))).
  destruct (breed_children_exact count_tape half_optimizer two_store 0%nat 1%nat
              genome_A genome_B half_optimizer_space_ok two_store_parents
              genome_A_valid genome_B_valid)
    as (c1 & c2 & o1 & o2 & s' & Hrun & Hne & _).
  exists c1, c2, s'. split; [exact Hrun | exact Hne].
Defined.

(** X12: [mutate] keeps a genome valid.  On a genome whose mapping gives
    every key of a well-formed parameter space an admissible value,
    [mutate] succeeds for every outcome of the random source and leaves a
    mapping that is valid again, with the same set of keys; a mapping
    with no key outside the space still has none. *)
Theorem mutate_keeps_valid (tape : nat -> N) (self : Optimizer) (s : state)
    (n : ref) (m : gmap string value) :
  space_ok self ->
  mapping_of s n = Some m ->
  valid_genome self m ->
  exists s' m',
    mutate tape self n s = (Ok n, s') /\
    mapping_of s' n = Some m' /\
    valid_genome self m' /\
    dom m' = dom m /\
    (exact_genome self m -> exact_genome self m').
Proof.
  intros Hsp Hmap Hval.
  apply mapping_of_Some in Hmap. destruct Hmap as (o & Ho & Hm).
  destruct (wp_elim (mutate tape self n)
              (fun r s' => exists k v, r = Ok n /\ In k (keys self) /\
                 admissible self k v /\
                 s' = set_dict (bump (bump s)) (network o) (<[k := v]> m)) s)
    as (r & s' & Hrun & k & v & -> & Hk & Hv & ->).
  { apply (mutate_spec tape self n o m s); auto. intros k v Hk Hv.
    exists k, v. auto. }
  assert (Hval' : valid_genome self (<[k := v]> m)).
  { intros k' Hk'. destruct (decide (k = k')) as [<- | Hne].
    - exists v. now rewrite lookup_insert_eq.
    - rewrite lookup_insert_ne by exact Hne. now apply Hval. }
  eexists. exists (<[k := v]> m). split; [exact Hrun |]. split.
  { apply mapping_of_Some. exists o. simpl. split; [exact Ho |].
    apply list_lookup_insert_eq. eapply lookup_lt_Some, Hm. }
  split; [exact Hval' |]. split.
  - destruct (Hval k Hk) as (v0 & Hv0 & _).
    rewrite dom_insert_L.
    assert (Hkd : k ∈ dom m) by (apply elem_of_dom; eauto).
    apply set_eq. intros x. rewrite elem_of_union, elem_of_singleton.
    split; [intros [-> | Hx]; assumption | now right].
  - intros [_ Hout]. split; [exact Hval' |].
    intros k' Hk'. rewrite lookup_insert_ne; [now apply Hout |].
    intros <-. contradiction.
Qed.

Lemma mutate_keeps_valid_witness :
  space_ok half_optimizer /\
  mapping_of two_store 0%nat = Some genome_A /\
  valid_genome half_optimizer genome_A /\
  exists s' m',
    mutate count_tape half_optimizer 0%nat two_store = (Ok 0%nat, s') /\
    mapping_of s' 0%nat = Some m' /\
    valid_genome half_optimizer m'.
Proof.
  refine (conj half_optimizer_space_ok (conj eq_refl (conj genome_A_valid _))).
  destruct (mutate_keeps_valid count_tape half_optimizer two_store 0%nat
              genome_A half_optimizer_space_ok eq_refl genome_A_valid)
    as (s' & m' & Hrun & Hm & Hv & _).
  exists s', m'. split; [exact Hrun |]. split; [exact Hm | exact Hv].
Defined.

(** ** What a run of [evolve] on a valid population can do *)

Lemma exact_in_extends self s s' c :
  extends s s' -> exact_in self s c -> exact_in self s' c.
Proof.
  intros Hext (m & Hm & He). exists m. split; [| exact He].
  now apply (mapping_of_extends s).
Qed.

Section LoopProfile.

Variable tape : nat -> N.
Variable self : Optimizer.
Variable parents : list ref.
Variable d : Z.
Variable s0 : state.

Hypothesis space : space_ok self.
Hypothesis parents_valid : valid_pop self s0 parents.

(** The loop over valid parents raises nothing but the [ValueError] of
    an empty parent list, and every child it returns is exact. *)
Lemma breed_loop_profile fuel :
  forall children s,
    extends s0 s ->
    Forall (exact_in self s) children ->
    wp (breed_loop tape self fuel parents d children)
       (fun r s' =>
          (forall e, r = Raise e -> e = ValueError /\ parents = []) /\
          (forall l, r = Ok l -> Forall (exact_in self s') l)) s.
Proof.
  induction fuel as [| fuel IH]; intros children s Hext Hch;
    cbn [breed_loop]; destruct (len children <? d);
    try (apply wp_ret; split; [discriminate | now intros l [= <-]]).
  - split; discriminate.
  - assert (Hempty : len parents - 1 < 0 ->
              (forall e, @Raise (list ref) ValueError = Raise e ->
                         e = ValueError /\ parents = []) /\
              (forall l, @Raise (list ref) ValueError = Ok l ->
                         Forall (exact_in self s) l)).
    { intros Hlt. split; [| discriminate]. intros e [= <-].
      split; [reflexivity |].
      destruct parents; [reflexivity | unfold len in Hlt; simpl in Hlt; lia]. }
    apply wp_bind, wp_random_randint; [intros Hp | exact Hempty].
    apply wp_bind, wp_random_randint; [intros _ | exact Hempty].
    replace (len parents - 1 - 0 + 1) with (len parents) by lia.
    rewrite !Z.add_0_l.
    set (male := Z.of_N (tape (cursor s)) mod len parents).
    set (female := Z.of_N (tape (cursor (bump s))) mod len parents).
    assert (Hext2 : extends s0 (bump (bump s))) by exact Hext.
    assert (Hch2 : Forall (exact_in self (bump (bump s))) children) by exact Hch.
    destruct (decide (male <> female)); [| now apply IH].
    assert (Hmale : 0 <= male < len parents) by (apply Z.mod_pos_bound; lia).
    assert (Hfemale : 0 <= female < len parents) by (apply Z.mod_pos_bound; lia).
    destruct (lookup_lt_is_Some_2 parents (Z.to_nat male)) as [pm Hpm];
      [unfold len in *; lia |].
    destruct (lookup_lt_is_Some_2 parents (Z.to_nat female)) as [pf Hpf];
      [unfold len in *; lia |].
    apply wp_bind.
    eapply wp_run; [exact (getitem_run parents male pm _ (proj1 Hmale) Hpm) |].
    apply wp_bind.
    eapply wp_run; [exact (getitem_run parents female pf _ (proj1 Hfemale) Hpf) |].
    destruct (parents_valid pm) as (mm & Hmm & Hvm);
      [eapply list_elem_of_In, list_elem_of_lookup_2, Hpm |].
    destruct (parents_valid pf) as (mf & Hmf & Hvf);
      [eapply list_elem_of_In, list_elem_of_lookup_2, Hpf |].
    assert (Hin : parents_in (bump (bump s)) (keys self) pm pf mm mf).
    { apply (parents_in_extends s0); [exact Hext2 |].
      apply mapping_of_Some in Hmm, Hmf. split; [exact Hmm | exact Hmf |].
      intros k Hk. destruct (Hvm k Hk) as (v1 & Hv1 & _).
      destruct (Hvf k Hk) as (v2 & Hv2 & _). split; eauto. }
    apply wp_bind, (breed_spec tape self pm pf mm mf); [exact space | exact Hin |].
    intros child1 child2 cur Hc1 Hc2.
    set (s3 := mkState _ _ cur).
    assert (Hext3 : extends (bump (bump s)) s3)
      by (split; simpl; now apply prefix_app_r).
    apply IH; [eapply extends_trans; eauto |].
    apply add_babies_Forall.
    + constructor; [| constructor; [| constructor]].
      * exists child1. split; [| now apply (child_of_exact self mm mf)].
        unfold mapping_of, s3. simpl. rewrite lookup_snoc2_1. simpl.
        apply lookup_snoc2_1.
      * exists child2. split; [| now apply (child_of_exact self mm mf)].
        unfold mapping_of, s3. simpl. rewrite lookup_snoc2_2. simpl.
        apply lookup_snoc2_2.
    + eapply Forall_impl; [exact Hch2 |].
      intros c. now apply exact_in_extends.
Qed.

End LoopProfile.

Lemma valid_pop_same self s s1 pop parents :
  nets s1 = nets s -> dicts s1 = dicts s ->
  (forall p, In p parents -> In p pop) ->
  valid_pop self s pop -> valid_pop self s1 parents.
Proof.
  intros Hn Hd Hin Hpop p Hp. destruct (Hpop p (Hin p Hp)) as (m & Hm & Hv).
  exists m. split; [| exact Hv]. unfold mapping_of in *. now rewrite Hn, Hd.
Qed.

(** X13: [evolve] keeps the population valid.  When every genome of the
    input gives every key of a well-formed parameter space an admissible
    value, so does every genome of a returned population: the parents
    with the mappings they had, the children with new mappings that have
    exactly the keys of the space.  If no input genome has a key outside
    the space, no returned genome has one. *)
Theorem evolve_keeps_valid (tape : nat -> N) (self : Optimizer) (fuel : nat)
    (s : state) (pop pop' : list ref) (s' : state) :
  space_ok self ->
  valid_pop self s pop ->
  evolve tape self fuel pop s = (Ok pop', s') ->
  valid_pop self s' pop' /\
  (exact_pop self s pop -> exact_pop self s' pop').
Proof.
  intros Hsp Hpop Hrun.
  pose proof (evolve_extends _ _ _ _ _ _ _ Hrun) as Hext.
  unfold evolve in Hrun. apply bind_inv_Ok in Hrun.
  destruct Hrun as (parents & s1 & Hsel & Hrun).
  apply bind_inv_Ok in Hrun. destruct Hrun as (children & s2 & Hloop & Hret).
  injection Hret as <- <-.
  destruct (select_parents _ _ _ _ _ _ Hsel) as (Hn & Hd & Hin & _).
  pose proof (breed_loop_profile tape self parents (len pop - len parents) s1
                Hsp (valid_pop_same _ _ _ _ _ Hn Hd Hin Hpop) fuel [] s1
                (extends_refl s1) (List.Forall_nil _)) as Hprof.
  unfold wp in Hprof. rewrite Hloop in Hprof. simpl in Hprof.
  destruct Hprof as [_ Hch]. specialize (Hch children eq_refl).
  rewrite Forall_forall in Hch.
  assert (Hchild : forall c, In c children -> exact_in self s2 c)
    by (intros c Hc; apply Hch; now apply list_elem_of_In).
  split.
  - intros p Hp. apply in_app_or in Hp. destruct Hp as [Hp | Hp].
    + destruct (Hpop p (Hin p Hp)) as (m & Hm & Hv).
      exists m. split; [now apply (mapping_of_extends s) | exact Hv].
    + destruct (Hchild p Hp) as (m & Hm & [Hv _]). now exists m.
  - intros Hex p Hp. apply in_app_or in Hp. destruct Hp as [Hp | Hp].
    + destruct (Hex p (Hin p Hp)) as (m & Hm & Hv).
      exists m. split; [now apply (mapping_of_extends s) | exact Hv].
    + exact (Hchild p Hp).
Qed.

Lemma four_store_valid :
  valid_pop half_optimizer four_store [0%nat; 1%nat; 2%nat; 3%nat].
Proof.
  intros p [<- | [<- | [<- | [<- | []]]]].
  - exists genome_A. split; [reflexivity | exact genome_A_valid].
  - exists genome_B. split; [reflexivity | exact genome_B_valid].
  - exists genome_A. split; [reflexivity | exact genome_A_valid].
  - exists genome_B. split; [reflexivity | exact genome_B_valid].
Qed.

Lemma evolve_keeps_valid_witness :
  space_ok half_optimizer /\
  valid_pop half_optimizer four_store [0%nat; 1%nat; 2%nat; 3%nat] /\
  exists pop' s',
    evolve count_tape half_optimizer 3 [0%nat; 1%nat; 2%nat; 3%nat] four_store
      = (Ok pop', s') /\
    valid_pop half_optimizer s' pop'.
Proof.
  refine (conj half_optimizer_space_ok (conj four_store_valid _)).
  eexists _, _. split; [vm_compute; reflexivity |].
  exact (proj1 (evolve_keeps_valid count_tape half_optimizer 3 four_store
                  [0%nat; 1%nat; 2%nat; 3%nat] _ _
                  half_optimizer_space_ok four_store_valid
                  ltac:(vm_compute; reflexivity))).
Defined.




(** ** Populations too small to breed *)

Lemma sublist_full {A} (l1 l2 : list A) :
  l1 `sublist_of` l2 -> (length l2 <= length l1)%nat -> l1 = l2.
Proof.
  induction 1 as [| x l1 l2 Hsub IH | x l1 l2 Hsub IH]; simpl; intros Hlen.
  - reflexivity.
  - f_equal. apply IH. lia.
  - apply sublist_length in Hsub. lia.
Qed.

(** X15: a population of fewer than 3 genomes is never bred.  Every run
    of [evolve] on an evaluated population of at most 2 genomes that
    returns, returns the ranking of the population itself, having created
    no genome and no mapping: with fewer parents than genomes the run
    raises or stays in the loop, since two distinct parents cannot be
    drawn. *)
Theorem evolve_small_population (tape : nat -> N) (self : Optimizer)
    (fuel : nat) (s : state) (pop : list ref) (costs : list Q)
    (pop' : list ref) (s' : state) :
  evaluated s pop costs ->
  len pop <= 2 ->
  evolve tape self fuel pop s = (Ok pop', s') ->
  pop' = ranked costs pop /\ nets s' = nets s /\ dicts s' = dicts s.
Proof.
  intros Hev HN Hrun.
  destruct (select_random_run tape self
              (slice_from (ranked costs pop)
                 (retain_length self (ranked costs pop)))
              (slice_to (ranked costs pop)
                 (retain_length self (ranked costs pop))) s)
    as (extra & Hsel & Hsub).
  apply slices_sublist in Hsub.
  rewrite <- (select_evaluated tape self s pop costs Hev) in Hsel.
  revert Hsel Hsub.
  generalize (slice_to (ranked costs pop)
                (retain_length self (ranked costs pop)) ++ extra).
  generalize (cursor s + length (slice_from (ranked costs pop)
                                   (retain_length self (ranked costs pop))))%nat.
  intros cur parents Hsel Hsub.
  pose proof (ranked_length s pop costs Hev) as Hlen.
  pose proof (sublist_length _ _ Hsub) as Hle.
  unfold evolve in Hrun. rewrite (bind_Ok _ _ _ _ _ Hsel) in Hrun.
  destruct (Z.le_gt_cases (len pop) (len parents)) as [Hall | Hfew].
  - assert (parents = ranked costs pop)
      by (apply sublist_full; [exact Hsub | unfold len in *; lia]).
    subst parents.
    assert (Hdone : len pop - len (ranked costs pop) <= len (@nil nat))
      by (unfold len in *; simpl; lia).
    rewrite (bind_Ok _ _ _ _ _
               (breed_loop_done tape self fuel _ _ [] _ Hdone)) in Hrun.
    injection Hrun as <- <-. now rewrite app_nil_r.
  - exfalso.
    assert (Hd : 0 < len pop - len parents) by lia.
    assert (Hcases : len parents = 0 \/ len parents = 1)
      by (unfold len in *; lia).
    destruct Hcases as [Hp | Hp].
    + destruct parents; [| unfold len in Hp; simpl in Hp; lia].
      destruct fuel as [| fuel'].
      * cbn [breed_loop] in Hrun.
        destruct (Z.ltb_spec (len (@nil nat)) (len pop - len (@nil nat)));
          [unfold bind in Hrun; simpl in Hrun; discriminate | lia].
      * rewrite (bind_Raise _ _ _ _ _
                   (breed_loop_no_parent tape self fuel' _ _ Hd)) in Hrun.
        discriminate.
    + destruct (breed_loop_one_parent tape self parents _ Hp Hd fuel
                  (mkState (nets s) (dicts s) cur)) as (cur' & Hloop).
      rewrite (bind_OutOfFuel _ _ _ _ Hloop) in Hrun. discriminate.
Qed.

Lemma evolve_small_population_witness :
  evaluated two_store [0%nat; 1%nat] [9 # 10; 2 # 10]%Q /\
  len [0%nat; 1%nat] <= 2 /\
  evolve count_tape keep_all_optimizer 4 [0%nat; 1%nat] two_store
    = (Ok [1%nat; 0%nat], two_store) /\
  [1%nat; 0%nat] = ranked [9 # 10; 2 # 10]%Q [0%nat; 1%nat].
Proof.
  assert (HN : len [0%nat; 1%nat] <= 2) by discriminate.
  assert (Hrun : evolve count_tape keep_all_optimizer 4 [0%nat; 1%nat] two_store
                 = (Ok [1%nat; 0%nat], two_store)) by reflexivity.
  refine (conj two_store_evaluated (conj HN (conj Hrun _))).
  exact (proj1 (evolve_small_population count_tape keep_all_optimizer 4
                  two_store [0%nat; 1%nat] [9 # 10; 2 # 10]%Q _ _
                  two_store_evaluated HN Hrun)).
Defined.
